(** * The route navigation engine of whole-foods-deliverance

    A shallow embedding of [deliverance/nav.py]: [handle_redirect],
    [Route.navigate_waypoint] and [Route.navigate].

    The Python code drives a Selenium browser.  The browser, the site behind
    it and the helpers imported from [deliverance.utils] and [config] are
    outside the embedded sources, so they appear here as an interface
    ([Env]): the embedded functions are written once, against any
    implementation of that interface.

    Effects are explicit.  A computation takes the program state (the
    browser, the Python objects reachable from the caller, and a record of
    the calls made to the outside) and either returns or raises, in both
    cases with the state it left behind, as a Python exception leaves the
    effects that preceded it.  Calls to [log] have no influence on control
    flow or on the browser and are not embedded. *)

From Stdlib Require Import String Ascii List ZArith Bool Lia.
Import ListNotations.

Local Open Scope string_scope.
Local Open Scope Z_scope.

(** ** Python values *)

(** [needle in hay] on Python strings: [needle] occurs somewhere in [hay]. *)
Fixpoint substr_in (needle hay : string) : bool :=
  String.prefix needle hay ||
  match hay with
  | EmptyString => false
  | String _ rest => substr_in needle rest
  end.

(** [sep.join(parts)] *)
Definition join (sep : string) (parts : list string) : string :=
  String.concat sep parts.

(** Truth value of a list: empty lists are false. *)
Definition list_truthy {A} (l : list A) : bool :=
  match l with
  | [] => false
  | _ :: _ => true
  end.

(** Truth value of an [int]. *)
Definition int_truthy (n : Z) : bool := negb (n =? 0).

Definition newline : string := String (ascii_of_nat 10) EmptyString.

(** ** Exceptions

    Modelled from the spec: [deliverance/exceptions.py] is not among the
    sources.  The spec lists [NavigationFailure], [RouteRedirect] and
    [UnhandledRedirect] as distinct signals; [run.py] catches the last two
    through their common base [Redirect].  Each carries the arguments it was
    constructed with: [None] stands for a constructor call without
    arguments.  [TimeoutException] is Selenium's; [ValueError] is what
    [tuple.index] raises; [OtherException] stands for anything else a
    collaborator may raise (a driver error, an out-of-stock abort). *)
Inductive Exc : Type :=
| NavigationException (msg : string)
| RouteRedirect (msg : option string)
| UnhandledRedirect (msg : option string)
| TimeoutException
| ValueError
| OtherException (name : string).

(** [except NavigationException:] *)
Definition is_NavigationException (e : Exc) : bool :=
  match e with
  | NavigationException _ => true
  | _ => false
  end.

(** [except TimeoutException:] *)
Definition is_TimeoutException (e : Exc) : bool :=
  match e with
  | TimeoutException => true
  | _ => false
  end.

(** ** Waypoints and routes *)

(** A Selenium locator: a strategy and a value. *)
Definition Locator : Type := (string * string)%type.

(** A handle on a page element. *)
Definition Elem : Type := nat.

(** [class Waypoint].  The class defines no [__eq__], so [==] on waypoints
    (as used by [tuple.index]) is object identity; [wp_id] is that
    identity. *)
Record Waypoint : Type := {
  wp_id : nat;
  locator : Locator;
  dest : string;
  optional : bool
}.

Definition Waypoint_eq (a b : Waypoint) : bool := Nat.eqb (wp_id a) (wp_id b).

(** The parsed command line, of which the engine reads one flag. *)
Record ParserArgs : Type := {
  ignore_oos : bool
}.

(** [class Route]. *)
Record Route : Type := {
  route_start : string;
  args : ParserArgs;
  waypoints : list Waypoint;
  waypoints_reached : Z
}.

(** [Route.__len__] *)
Definition Route_len (r : Route) : nat := length (waypoints r).

(** Truth value of a route: the class defines [__len__] and no [__bool__],
    so a route without waypoints is false. *)
Definition Route_truthy (r : Route) : bool := negb (Nat.eqb (Route_len r) 0).

(** [t.index(x)]: position of the first element equal to [x]. *)
Fixpoint index (l : list Waypoint) (x : Waypoint) : option nat :=
  match l with
  | [] => None
  | y :: rest =>
      if Waypoint_eq y x then Some O
      else match index rest x with
           | Some i => Some (S i)
           | None => None
           end
  end.

(** ** The outside world *)

(** What a call to the outside does: it returns or raises, and either way
    the world has moved on. *)
Inductive Reply (W A : Type) : Type :=
| Returns (a : A) (w : W)
| Throws (e : Exc) (w : W).
Arguments Returns {W A} a w.
Arguments Throws {W A} e w.

(** The constants of [config] and the collaborators of [deliverance.utils]
    and Selenium, none of which is among the sources.  [W] is the state of
    the browser and of the site behind it.

    - [wait_staleness e t] is
      [WebDriverWait(driver, t).until(EC.staleness_of(e))];
    - [wait_url_matches p t] is
      [WebDriverWait(driver, t).until(EC.url_matches(p))];
    - [jitter] is [jitter(.4)], a random pause. *)
Class Env (W : Type) : Type := {
  BASE_URL : string;
  AUTH_URL : string;
  OOS_URL : string;
  THROTTLE_URL : string;
  remove_qs : string -> string;
  current_url : W -> string;
  driver_get : string -> W -> Reply W unit;
  driver_refresh : W -> Reply W unit;
  wait_for_element : Locator -> Z -> W -> Reply W Elem;
  jitter : W -> Reply W unit;
  click_when_enabled : Elem -> W -> Reply W unit;
  wait_staleness : Elem -> Z -> W -> Reply W unit;
  wait_url_matches : string -> Z -> W -> Reply W unit;
  wait_for_auth : W -> Reply W unit;
  handle_oos : bool -> W -> Reply W unit;
  handle_throttle : W -> Reply W unit
}.

(** The calls made to the outside, in the order they were made. *)
Inductive Call : Type :=
| call_get (url : string)
| call_refresh
| call_wait_for_element (l : Locator) (timeout : Z)
| call_jitter
| call_click (e : Elem)
| call_wait_staleness (e : Elem) (timeout : Z)
| call_wait_url_matches (pattern : string) (timeout : Z)
| call_wait_for_auth
| call_handle_oos (ignore : bool)
| call_handle_throttle.

Definition is_click (c : Call) : bool :=
  match c with
  | call_click _ => true
  | _ => false
  end.

(** References to [Route] objects. *)
Definition addr : Type := nat.

Section Engine.

Context {W : Type} {env : Env W}.

(** The program state: the browser, the [Route] objects by reference, and
    the calls made so far. *)
Record State : Type := {
  driver : W;
  heap : addr -> Route;
  calls : list Call
}.

(** ** Computations *)

Inductive Res (A : Type) : Type :=
| Ok (a : A) (s : State)
| Raise (e : Exc) (s : State).
Arguments Ok {A} a s.
Arguments Raise {A} e s.

Definition M (A : Type) : Type := State -> Res A.

Definition ret {A} (a : A) : M A := fun s => Ok a s.

Definition bind {A B} (m : M A) (k : A -> M B) : M B := fun s =>
  match m s with
  | Ok a s' => k a s'
  | Raise e s' => Raise e s'
  end.

Definition raise {A} (e : Exc) : M A := fun s => Raise e s.

(** [try: body except <catches>: handler] *)
Definition try_except {A} (body : M A) (catches : Exc -> bool)
    (handler : M A) : M A := fun s =>
  match body s with
  | Ok a s' => Ok a s'
  | Raise e s' => if catches e then handler s' else Raise e s'
  end.

Definition gets {A} (f : State -> A) : M A := fun s => Ok (f s) s.

Definition final {A} (r : Res A) : State :=
  match r with
  | Ok _ s => s
  | Raise _ s => s
  end.

Definition returned {A} (r : Res A) : bool :=
  match r with
  | Ok _ _ => true
  | Raise _ _ => false
  end.

(** A call to the outside: the world moves, the call is recorded. *)
Definition call {A} (c : Call) (op : W -> Reply W A) : M A := fun s =>
  match op (driver s) with
  | Returns a w =>
      Ok a {| driver := w; heap := heap s; calls := calls s ++ [c] |}
  | Throws e w =>
      Raise e {| driver := w; heap := heap s; calls := calls s ++ [c] |}
  end.

(** [for x in l: body(x)] *)
Fixpoint for_each {A} (l : list A) (body : A -> M unit) : M unit :=
  match l with
  | [] => ret tt
  | x :: rest => bind (body x) (fun _ => for_each rest body)
  end.

End Engine.

Arguments State W : clear implicits.
Arguments Res W A : clear implicits.
Arguments M W A : clear implicits.
Arguments Ok {W A} a s.
Arguments Raise {W A} e s.

Declare Scope py_scope.
Delimit Scope py_scope with py.
Notation "x <- m ;; k" := (bind m (fun x => k))
  (at level 61, m at next level, right associativity) : py_scope.
Notation "m ;; k" := (bind m (fun _ => k))
  (at level 61, right associativity) : py_scope.
Local Open Scope py_scope.

Section Nav.

Context {W : Type} {env : Env W}.

(** [remove_qs(driver.current_url)]: the normalized location. *)
Definition location (s : State W) : string :=
  remove_qs (current_url (driver s)).

Definition current_location : M W string := gets location.

(** The attributes of the route object at [r]. *)
Definition deref (r : addr) : M W Route := gets (fun s => heap s r).

(** [route and current == route.route_start], with [route=None] the
    default: the route object when the test holds. *)
Definition at_route_start (route : option addr) (current : string)
    : M W (option Route) :=
  match route with
  | None => ret None
  | Some r =>
      rt <- deref r ;;
      if Route_truthy rt && String.eqb current (route_start rt)
      then ret (Some rt)
      else ret None
  end.

Definition timeout_message (url : string) : string :=
  "Timed out waiting for redirect to a valid dest" ++ newline ++
  "Current URL: '" ++ url ++ "'".

(** The last two arms of [handle_redirect]:
    [elif valid_dest and timeout: ... else: raise UnhandledRedirect()]. *)
Definition wait_valid_dest (valid_dest : option (list string))
    (timeout : option Z) : M W unit :=
  match valid_dest, timeout with
  | Some vd, Some t =>
      if list_truthy vd && int_truthy t then
        try_except
          (call (call_wait_url_matches (join "|" vd) t)
                (wait_url_matches (join "|" vd) t))
          is_TimeoutException
          (url <- gets (fun s => current_url (driver s)) ;;
           raise (UnhandledRedirect (Some (timeout_message url))))
      else raise (UnhandledRedirect None)
  | _, _ => raise (UnhandledRedirect None)
  end.

(** [handle_redirect(driver, ignore_oos, valid_dest=None, timeout=None,
    route=None)] *)
Definition handle_redirect (ignore_oos : bool)
    (valid_dest : option (list string)) (timeout : option Z)
    (route : option addr) : M W unit :=
  current <- current_location ;;
  if substr_in AUTH_URL current then
    call call_wait_for_auth wait_for_auth
  else if substr_in OOS_URL current then
    call (call_handle_oos ignore_oos) (handle_oos ignore_oos)
  else if substr_in THROTTLE_URL current then
    call call_handle_throttle handle_throttle ;;
    raise (RouteRedirect (Some "Redirected after throttle"))
  else
    loop_back <- at_route_start route current ;;
    match loop_back with
    | Some rt =>
        (if negb (int_truthy (waypoints_reached rt))
         then call call_refresh driver_refresh
         else ret tt) ;;
        raise (RouteRedirect None)
    | None => wait_valid_dest valid_dest timeout
    end.

(** [Route.navigate_waypoint(self, driver, waypoint, timeout, valid_dest)] *)
Definition navigate_waypoint (self : addr) (waypoint : Waypoint)
    (timeout : Z) (valid_dest : list string) : M W unit :=
  elem <- call (call_wait_for_element (locator waypoint) timeout)
               (wait_for_element (locator waypoint) timeout) ;;
  call call_jitter jitter ;;
  call (call_click elem) (click_when_enabled elem) ;;
  try_except
    (call (call_wait_staleness elem timeout) (wait_staleness elem timeout))
    is_TimeoutException
    (ret tt) ;;
  current <- current_location ;;
  if String.eqb current (BASE_URL ++ dest waypoint) then ret tt
  else if list_truthy valid_dest &&
          existsb (fun d => substr_in d current) valid_dest then ret tt
  else raise (NavigationException
                ("Navigation to '" ++ dest waypoint ++ "' failed")).

(** [[waypnt.dest for waypnt in
      self.waypoints[self.waypoints.index(waypoint)+1:]]] *)
Definition later_dests (self : addr) (waypoint : Waypoint)
    : M W (list string) :=
  rt <- deref self ;;
  match index (waypoints rt) waypoint with
  | None => raise ValueError
  | Some i => ret (map dest (skipn (i + 1) (waypoints rt)))
  end.

(** The [try ... except NavigationException ...] statement of the loop of
    [navigate].  [valid_dest] is bound first: its computation cannot raise
    [NavigationException], so the handler always sees the list of the
    current iteration. *)
Definition attempt (self : addr) (timeout : Z) (waypoint : Waypoint)
    : M W unit :=
  valid_dest <- later_dests self waypoint ;;
  try_except
    (current <- current_location ;;
     if String.eqb current (BASE_URL ++ dest waypoint) then ret tt
     else navigate_waypoint self waypoint timeout valid_dest)
    is_NavigationException
    (rt <- deref self ;;
     handle_redirect (ignore_oos (args rt)) (Some valid_dest) (Some timeout)
                     (Some self)).

(** [self.waypoints_reached = n] *)
Definition set_reached (r : Route) (n : Z) : Route :=
  {| route_start := route_start r; args := args r;
     waypoints := waypoints r; waypoints_reached := n |}.

Definition store (self : addr) (r : Route) (s : State W) : State W :=
  {| driver := driver s;
     heap := fun a => if Nat.eqb a self then r else heap s a;
     calls := calls s |}.

Definition assign_reached (self : addr) (n : Z) : M W unit :=
  fun s => Ok tt (store self (set_reached (heap s self) n) s).

(** [self.waypoints_reached += 1] *)
Definition bump (self : addr) (s : State W) : State W :=
  store self
    (set_reached (heap s self) (waypoints_reached (heap s self) + 1)) s.

Definition incr_reached (self : addr) : M W unit :=
  fun s => Ok tt (bump self s).

(** One iteration of the loop of [navigate]. *)
Definition navigate_body (self : addr) (timeout : Z) (waypoint : Waypoint)
    : M W unit :=
  attempt self timeout waypoint ;;
  incr_reached self.

(** The statements of [navigate] before its loop: the counter is reset and
    the browser is sent to the start of the route unless it is there. *)
Definition navigate_entry (self : addr) : M W unit :=
  assign_reached self 0 ;;
  current <- current_location ;;
  rt <- deref self ;;
  if negb (String.eqb current (route_start rt))
  then call (call_get (route_start rt)) (driver_get (route_start rt))
  else ret tt.

(** [Route.navigate(self, driver, timeout=20)] *)
Definition navigate (self : addr) (timeout : Z) : M W unit :=
  navigate_entry self ;;
  rt <- deref self ;;
  for_each (waypoints rt) (navigate_body self timeout).

(** ** Vocabulary for the statements below *)

(** The number of iterations of the loop over [wps] that run to their end
    from [s]: those whose [try] statement returns, by whichever way. *)
Fixpoint completed (self : addr) (timeout : Z) (wps : list Waypoint)
    (s : State W) : nat :=
  match wps with
  | [] => O
  | w :: rest =>
      match attempt self timeout w s with
      | Ok _ s1 => S (completed self timeout rest (bump self s1))
      | Raise _ _ => O
      end
  end.

(** The click-and-wait sequence of [navigate_waypoint] runs to its end:
    the element [e] is found, the pause and the click return, and the wait
    for staleness returns or times out, leaving the world at [w']. *)
Definition click_and_wait (waypoint : Waypoint) (timeout : Z) (e : Elem)
    (w w' : W) : Prop :=
  exists w1 w2 w3,
    wait_for_element (locator waypoint) timeout w = Returns e w1 /\
    jitter w1 = Returns tt w2 /\
    click_when_enabled e w2 = Returns tt w3 /\
    (wait_staleness e timeout w3 = Returns tt w' \/
     wait_staleness e timeout w3 = Throws TimeoutException w').

(** The state that sequence leaves. *)
Definition landed (s : State W) (waypoint : Waypoint) (timeout : Z)
    (e : Elem) (w' : W) : State W :=
  {| driver := w';
     heap := heap s;
     calls := calls s ++
              [call_wait_for_element (locator waypoint) timeout;
               call_jitter; call_click e; call_wait_staleness e timeout] |}.

(** The landing test of [navigate_waypoint], as a proposition: [base] is
    the address destinations are relative to. *)
Definition lands_on (base current : string) (waypoint : Waypoint)
    (valid_dest : list string) : Prop :=
  current = base ++ dest waypoint \/
  exists d, In d valid_dest /\ exists pre post, current = pre ++ d ++ post.

Definition navigation_failed (waypoint : Waypoint) : Exc :=
  NavigationException ("Navigation to '" ++ dest waypoint ++ "' failed").

End Nav.

(** ** The ordered rule table of the specification

    The specification describes [handle_redirect] as a classifier over an
    ordered list of rules, the first matching rule deciding the recovery.
    [spec_classify] and [spec_recover] follow that description; they are
    compared with [handle_redirect] below. *)

Inductive Rule : Type :=
| rule_auth
| rule_oos
| rule_throttle
| rule_start_loop
| rule_valid_dest
| rule_unhandled.

Definition spec_decision_order : list Rule :=
  [rule_auth; rule_oos; rule_throttle; rule_start_loop; rule_valid_dest;
   rule_unhandled].

Section SpecClassifier.

Context {W : Type} {env : Env W}.

(** Whether a rule applies to the normalized location [current], given the
    route in context (if any) and the caller's destinations and timeout. *)
Definition spec_rule_applies (current : string) (route : option Route)
    (valid_dest : option (list string)) (timeout : option Z) (r : Rule)
    : bool :=
  match r with
  | rule_auth => substr_in AUTH_URL current
  | rule_oos => substr_in OOS_URL current
  | rule_throttle => substr_in THROTTLE_URL current
  | rule_start_loop =>
      match route with
      | Some rt => Route_truthy rt && String.eqb current (route_start rt)
      | None => false
      end
  | rule_valid_dest =>
      match valid_dest, timeout with
      | Some vd, Some t => list_truthy vd && int_truthy t
      | _, _ => false
      end
  | rule_unhandled => true
  end.

(** First match wins. *)
Definition spec_classify (current : string) (route : option Route)
    (valid_dest : option (list string)) (timeout : option Z) : Rule :=
  match find (spec_rule_applies current route valid_dest timeout)
             spec_decision_order with
  | Some r => r
  | None => rule_unhandled
  end.

(** The recovery each rule stands for. *)
Definition spec_recover (r : Rule) (ignore_oos : bool) (route : option Route)
    (valid_dest : option (list string)) (timeout : option Z) : M W unit :=
  match r with
  | rule_auth => call call_wait_for_auth wait_for_auth
  | rule_oos => call (call_handle_oos ignore_oos) (handle_oos ignore_oos)
  | rule_throttle =>
      call call_handle_throttle handle_throttle ;;
      raise (RouteRedirect (Some "Redirected after throttle"))
  | rule_start_loop =>
      (if match route with
          | Some rt => waypoints_reached rt =? 0
          | None => false
          end
       then call call_refresh driver_refresh
       else ret tt) ;;
      raise (RouteRedirect None)
  | rule_valid_dest =>
      match valid_dest, timeout with
      | Some vd, Some t =>
          fun s =>
            match wait_url_matches (join "|" vd) t (driver s) with
            | Returns _ w =>
                Ok tt {| driver := w; heap := heap s;
                         calls := calls s ++
                                  [call_wait_url_matches (join "|" vd) t] |}
            | Throws e w =>
                let s' := {| driver := w; heap := heap s;
                             calls := calls s ++
                                  [call_wait_url_matches (join "|" vd) t] |}
                in
                match e with
                | TimeoutException =>
                    Raise (UnhandledRedirect
                             (Some (timeout_message (current_url w)))) s'
                | _ => Raise e s'
                end
            end
      | _, _ => raise (UnhandledRedirect None)
      end
  | rule_unhandled => raise (UnhandledRedirect None)
  end.

End SpecClassifier.

(** ** A scripted browser

    An implementation of [Env] for running the engine on concrete inputs:
    the site's reactions are read off a script, one entry per call to the
    outside, each entry giving the exception raised, if any, and the
    location the browser moves to, if it moves.  When the script is exhausted, calls return
    and the browser stays where it is, except that [driver.get] loads the
    address it is given. *)
Module Mock.

Record World : Type := {
  url : string;
  script : list (option Exc * option string)
}.

Definition move (u : option string) (w : World) : string :=
  match u with
  | Some u' => u'
  | None => url w
  end.

Definition react {A} (a : A) (w : World) : Reply World A :=
  match script w with
  | [] => Returns a w
  | (None, u) :: rest => Returns a {| url := move u w; script := rest |}
  | (Some e, u) :: rest => Throws e {| url := move u w; script := rest |}
  end.

Definition load (u : string) (w : World) : Reply World unit :=
  match script w with
  | [] => Returns tt {| url := u; script := [] |}
  | _ :: _ => react tt w
  end.

(** [url.split('?')[0]] *)
Fixpoint strip_query (u : string) : string :=
  match u with
  | EmptyString => EmptyString
  | String c rest =>
      if Ascii.eqb c "?"%char then EmptyString
      else String c (strip_query rest)
  end.

#[export] Instance env : Env World := {|
  BASE_URL := "https://shop.test";
  AUTH_URL := "/ap/signin";
  OOS_URL := "/itemselect";
  THROTTLE_URL := "/throttle";
  remove_qs := strip_query;
  current_url := url;
  driver_get := load;
  driver_refresh := react tt;
  wait_for_element := fun _ _ => react 7%nat;
  jitter := react tt;
  click_when_enabled := fun _ => react tt;
  wait_staleness := fun _ _ => react tt;
  wait_url_matches := fun _ _ => react tt;
  wait_for_auth := react tt;
  handle_oos := fun _ => react tt;
  handle_throttle := react tt
|}.

Definition wp (id : nat) (d : string) : Waypoint :=
  {| wp_id := id; locator := ("id", "button"); dest := d;
     optional := false |}.

Definition route (start : string) (wps : list Waypoint) (reached : Z)
    : Route :=
  {| route_start := start; args := {| ignore_oos := false |};
     waypoints := wps; waypoints_reached := reached |}.

(** A state with one route object, at address 0. *)
Definition state (u : string) (sc : list (option Exc * option string))
    (r : Route)
    : State World :=
  {| driver := {| url := u; script := sc |};
     heap := fun _ => r;
     calls := [] |}.

(** *** Concrete situations *)

Definition cart : string := "https://shop.test/cart".

(** The four calls of a hop: the element is found, the pause ends, the
    click lands on [d], the element goes stale. *)
Definition hop (d : string) (sc : list (option Exc * option string))
    : list (option Exc * option string) :=
  ((None, None) :: (None, None) :: (None, Some d) :: (None, None) :: sc)%list.

Definition w1 : Waypoint := wp 1 "/b".
Definition w2 : Waypoint := wp 2 "/c".

(** Where the browser is after a click that landed on [u], the script
    [sc] still to come. *)
Definition at_page (u : string) (sc : list (option Exc * option string))
    : World :=
  {| url := u; script := sc |}.

(** Two waypoints passed, then bounced back to the start of the route. *)
Definition bounced : State World :=
  state "https://shop.test/cart?ref=nav" []
    (route cart [wp 1 "/b"; wp 2 "/c"; wp 3 "/d"] 2).

(** A page that matches no pattern, with a query string. *)
Definition stranded : State World :=
  state "https://shop.test/unknown?ref=1" []
    (route cart [wp 1 "/b"] 0).

(** A throttle page that is also the start of the route. *)
Definition throttled : State World :=
  state "https://shop.test/throttle" []
    (route "https://shop.test/throttle" [wp 1 "/b"] 0).

(** A sign-in page, the pattern in the middle of the address. *)
Definition signing_in : State World :=
  state "https://shop.test/ap/signin/form?next=cart" []
    (route cart [wp 1 "/b"] 0).

(** The site answers each click with the expected page. *)
Definition smooth : State World :=
  state cart
    (hop "https://shop.test/b" (hop "https://shop.test/c" []))
    (route cart [wp 1 "/b"; wp 2 "/c"] 5).

(** The click lands on the destination appended to the start of the route,
    not to [BASE_URL]. *)
Definition under_start : State World :=
  state cart (hop "https://shop.test/cart/b" [])
    (route cart [wp 1 "/b"] 0).

(** The first click jumps ahead to a page under the start of the route
    whose address ends with the destination of the second waypoint. *)
Definition jumped : State World :=
  state cart (hop "https://shop.test/cart/c" [])
    (route cart [wp 1 "/b"; wp 2 "/c"] 0).

(** The state [navigate] is in after its first iteration from [jumped]. *)
Definition after_jump : State World :=
  bump 0%nat
    (landed (store 0%nat (set_reached (heap jumped 0%nat) 0) jumped) w1 20
       7%nat (at_page "https://shop.test/cart/c" [])).

(** Already at the destination of the waypoint. *)
Definition resumed : State World :=
  state "https://shop.test/b?from=auth" []
    (route cart [wp 1 "/b"; wp 2 "/c"] 0).

(** The clicked element never goes stale, the page changes in place. *)
Definition in_place : State World :=
  state cart
    [(None, None); (None, None); (None, Some "https://shop.test/b");
     (Some TimeoutException, None)]
    (route cart [wp 1 "/b"] 0).

(** One waypoint object used twice in a route: [w = Waypoint(...)],
    [Route(cart, args, w, Waypoint(...), w)].  The third click bounces the
    browser back to the page of the second waypoint. *)
Definition revisiting : State World :=
  state cart
    (hop "https://shop.test/a"
       (hop "https://shop.test/b" (hop "https://shop.test/b" [])))
    (route cart [wp 1 "/a"; wp 2 "/b"; wp 1 "/a"] 0).

(** An out-of-stock page that is also the start of the route, the pattern
    in the middle of the address. *)
Definition sold_out : State World :=
  state "https://shop.test/gp/itemselect/view?item=7" []
    (route "https://shop.test/gp/itemselect/view" [wp 1 "/b"] 0).

(** Bounced to the start of the route before any waypoint was passed, the
    caller having destinations to wait for. *)
Definition bounced_early : State World :=
  state "https://shop.test/cart?ref=nav" []
    (route cart [wp 1 "/b"; wp 2 "/c"] 0).

(** The wait of the recovery never sees a valid destination. *)
Definition timed_out : State World :=
  state "https://shop.test/unknown?ref=1"
    [(Some TimeoutException, Some "https://shop.test/unknown?late=1")]
    (route cart [wp 1 "/b"; wp 2 "/c"] 0).

(** A route without waypoints, the browser at its start. *)
Definition idle : State World :=
  state cart [] (route cart [] 0).

(** Back at the start of the route before any waypoint was passed. *)
Definition fresh_start : State World :=
  state cart [] (route cart [wp 1 "/b"] 0).

(** The start of the route cannot be loaded. *)
Definition unreachable : State World :=
  state "https://shop.test/elsewhere"
    [(Some (OtherException "WebDriverException"), None)]
    (route cart [wp 1 "/b"] 4).

(** The element of the first waypoint never shows up. *)
Definition missing_button : State World :=
  state cart [(Some TimeoutException, None)] (route cart [wp 1 "/b"] 0).

End Mock.

(** ** Vocabulary for the calls a run makes *)

(** The calls [handle_redirect] can make: the three handlers, the reload
    and the wait for a valid destination. *)
Definition recovery_call (c : Call) : bool :=
  match c with
  | call_wait_for_auth | call_handle_oos _ | call_handle_throttle
  | call_refresh | call_wait_url_matches _ _ => true
  | _ => false
  end.

Definition is_get (c : Call) : bool :=
  match c with
  | call_get _ => true
  | _ => false
  end.

(** How many of the calls are clicks, and how many are page loads. *)
Definition clicks (l : list Call) : nat := List.length (filter is_click l).
Definition loads (l : list Call) : nat := List.length (filter is_get l).

(** [needle] occurs somewhere in [hay], said without the test the code
    runs: [hay] is some text, then [needle], then some text. *)
Definition occurs_in (needle hay : string) : Prop :=
  exists pre post, hay = pre ++ needle ++ post.

(** * The slot preferences and the message of [run.py]

    The functions of [run.py] that compute on strings and lists.  Strings
    are byte strings here; [lower] is Python's [str.lower] on ASCII text,
    which is what slot names and the keys of the configuration are. *)
Module Run.

(** [c.lower()] for one ASCII character. *)
Definition lower_ascii (c : ascii) : ascii :=
  let n := nat_of_ascii c in
  if (Nat.leb 65 n && Nat.leb n 90)%bool then ascii_of_nat (n + 32) else c.

(** [s.lower()] *)
Fixpoint lower (s : string) : string :=
  match s with
  | EmptyString => EmptyString
  | String c rest => String (lower_ascii c) (lower rest)
  end.

(** [s.replace(old, new)]: every occurrence of [old], left to right and
    without overlap; [skip] counts the characters of an occurrence still to
    be passed over. *)
Fixpoint replace_from (old new : string) (skip : nat) (s : string)
    : string :=
  match s with
  | EmptyString =>
      match old with
      | EmptyString => new
      | String _ _ => EmptyString
      end
  | String c rest =>
      match skip with
      | S k => replace_from old new k rest
      | O =>
          match old with
          | EmptyString => new ++ String c (replace_from old new O rest)
          | String _ _ =>
              if String.prefix old s
              then new ++ replace_from old new (String.length old - 1) rest
              else String c (replace_from old new O rest)
          end
      end
  end.

Definition replace (old new s : string) : string := replace_from old new O s.

(** What the engine reads of a [SlotElement] (a class of
    [deliverance.elements], not among the sources): its [full_name], and
    what [str(slot)] and [str(slot._date_element)] give. *)
Record SlotElement : Type := {
  full_name : string;
  slot_text : string;
  date_text : string
}.

(** The argument of [clean_slotname]: a slot or a string. *)
Inductive SlotOrStr : Type :=
| a_slot (slot : SlotElement)
| a_str (name : string).

(** [clean_slotname(slot_or_str)] *)
Definition clean_slotname (slot_or_str : SlotOrStr) : string :=
  let name :=
    match slot_or_str with
    | a_slot slot => full_name slot
    | a_str name => name
    end in
  replace " " "" (lower name).

(** The inner loop of [get_prefs_from_conf], over the windows of one day;
    [None] is the early [return None]. *)
Fixpoint prefs_of_windows (day : string) (windows : list string)
    (prefs : list string) : option (list string) :=
  match windows with
  | [] => Some prefs
  | window :: rest =>
      if String.eqb (lower window) "any" then
        if String.eqb (lower day) "any" then None
        else prefs_of_windows day rest (prefs ++ [lower day])
      else
        prefs_of_windows day rest
          (prefs ++ [clean_slotname (a_str (join "::" [day; window]))])
  end.

(** The outer loop, over [conf.items()]. *)
Fixpoint prefs_of_days (conf : list (string * list string))
    (prefs : list string) : option (list string) :=
  match conf with
  | [] => Some prefs
  | (day, windows) :: rest =>
      match prefs_of_windows day windows prefs with
      | None => None
      | Some prefs' => prefs_of_days rest prefs'
      end
  end.

(** The body of [get_prefs_from_conf(conf)], which the decorator
    [conf_dependent] (not among the sources) calls with the section
    [slot_preference] of the configuration: the days in the order of the
    file, each with its windows.  [None] is Python's [None]: any slot will
    do. *)
Definition get_prefs_from_conf (conf : list (string * list string))
    : option (list string) :=
  prefs_of_days conf [].

(** The slots one preference selects, in [get_slots]. *)
Definition preferred_by (cmp : string) (slots : list SlotElement)
    : list SlotElement :=
  if String.prefix "any" cmp then
    filter (fun s => substr_in (replace "any" "" cmp)
                               (clean_slotname (a_slot s))) slots
  else
    filter (fun s => String.prefix cmp (clean_slotname (a_slot s))) slots.

(** What [get_slots] returns, given the slots it found on the page
    (lines 130-150): [if slots and prefs: ... return preferred_slots
    else: return slots]. *)
Definition get_slots_result (slots : list SlotElement)
    (prefs : option (list string)) : list SlotElement :=
  match prefs with
  | Some ps =>
      if list_truthy slots && list_truthy ps
      then flat_map (fun cmp => preferred_by cmp slots) ps
      else slots
  | None => slots
  end.

(** The loop of [generate_message]: a blank line and the date before the
    first slot of a date not yet in [text], then the slot. *)
Fixpoint message_text (slots : list SlotElement) (text : list string)
    : list string :=
  match slots with
  | [] => text
  | slot :: rest =>
      let date := date_text slot in
      let text' :=
        if existsb (String.eqb date) text then text
        else (text ++ [EmptyString; date])%list in
      message_text rest (text' ++ [slot_text slot])
  end.

(** [generate_message(slots, service, checkout)]: the message, [None] when
    there is nothing to say, or the [IndexError] of [slots[0]]. *)
Definition generate_message (slots : list SlotElement) (service : string)
    (checkout : bool) : Exc + option string :=
  let text := message_text slots [] in
  let extended :=
    if checkout then
      match slots with
      | [] => inl (OtherException "IndexError")
      | first :: _ =>
          inr (text ++
               [String.append newline "Will attempt to checkout using slot:";
                full_name first])%list
      end
    else inr text in
  match extended with
  | inl e => inl e
  | inr text' =>
      if list_truthy text'
      then inr (Some (join newline
                        ((service ++ " delivery slots found!") :: text')))
      else inr None
  end.

(** A card row of the payment page, as [PaymentRow] (not among the
    sources) presents it. *)
Record PaymentRow : Type := {
  card_number : string
}.

(** The body of [select_payment_method(driver, conf)]: the position of the
    row on which [select()] is called, if any.  [pref_card] is
    [conf.get('preferred_card')]. *)
Fixpoint first_card (rows : list PaymentRow) (pref_card : string)
    (position : nat) : option nat :=
  match rows with
  | [] => None
  | card_row :: rest =>
      if String.eqb (card_number card_row) pref_card then Some position
      else first_card rest pref_card (S position)
  end.

Definition select_payment_method (rows : list PaymentRow)
    (pref_card : option string) : option nat :=
  match pref_card with
  | None => None
  | Some card =>
      if String.eqb card EmptyString then None
      else first_card rows card O
  end.

End Run.

(** Slots and rows to run the functions of [run.py] on. *)
Module RunCases.

Import Run.

Definition slot (name : string) : SlotElement :=
  {| full_name := name; slot_text := name; date_text := "Today" |}.

Definition sunday_early : SlotElement := slot "Sun, Apr 19::1:00 PM - 3:00 PM".
Definition sunday_late : SlotElement := slot "Sun, Apr 19::3:00 PM - 5:00 PM".

Definition row (number : string) : PaymentRow := {| card_number := number |}.

End RunCases.

(** * Properties *)

(** ** Substring containment *)

Lemma prefix_iff (p s : string) :
  String.prefix p s = true <-> exists post, s = p ++ post.
Proof.
  revert s; induction p as [|c p IH]; intros s.
  - split; [intros _; exists s; reflexivity | intros _; destruct s; reflexivity].
  - destruct s as [|d s]; simpl.
    + split; [discriminate | intros [post H]; discriminate].
    + destruct (Ascii.ascii_dec c d) as [->|Hne].
      * rewrite IH. split; intros [post H]; exists post.
        -- now rewrite H.
        -- now inversion H.
      * split; [discriminate | intros [post H]; simpl in H; congruence].
Qed.

(** [substr_in] is occurrence anywhere: neither equality nor a match
    anchored at either end. *)
Lemma substr_in_iff (needle hay : string) :
  substr_in needle hay = true <->
  exists pre post, hay = pre ++ needle ++ post.
Proof.
  induction hay as [|c hay IH]; cbn [substr_in].
  - rewrite orb_false_r, prefix_iff. split.
    + intros [post H]. exists EmptyString, post. exact H.
    + intros [pre [post H]]. destruct pre; [now exists post | discriminate].
  - rewrite orb_true_iff, IH, prefix_iff. split.
    + intros [[post H] | [pre [post H]]].
      * exists EmptyString, post. exact H.
      * exists (String c pre), post. simpl. now rewrite H.
    + intros [pre [post H]]. destruct pre as [|d pre].
      * left. now exists post.
      * right. exists pre, post. simpl in H. now inversion H.
Qed.

Lemma substr_in_occurs (pre needle post : string) :
  substr_in needle (pre ++ needle ++ post) = true.
Proof. apply substr_in_iff. now exists pre, post. Qed.

Lemma substr_in_absent (needle hay : string) :
  ~ occurs_in needle hay -> substr_in needle hay = false.
Proof.
  intros H. destruct (substr_in needle hay) eqn:E; [|reflexivity].
  exfalso. apply H. now apply substr_in_iff.
Qed.

Lemma not_occurring (needle hay : string) :
  substr_in needle hay = false -> ~ occurs_in needle hay.
Proof.
  intros E H. apply substr_in_iff in H. congruence.
Qed.

(** ** Positions in the waypoint tuple *)

Lemma index_first (pre post : list Waypoint) (w : Waypoint) :
  (forall x, In x pre -> wp_id x <> wp_id w) ->
  index (pre ++ w :: post) w = Some (List.length pre).
Proof.
  induction pre as [|y pre IH]; intros Hpre; simpl.
  - unfold Waypoint_eq. now rewrite Nat.eqb_refl.
  - unfold Waypoint_eq.
    destruct (Nat.eqb_spec (wp_id y) (wp_id w)) as [E|_].
    + exfalso. apply (Hpre y); [now left | exact E].
    + rewrite IH; [reflexivity | intros x Hx; apply Hpre; now right].
Qed.

Lemma index_member (l : list Waypoint) (w : Waypoint) :
  In w l -> exists i, index l w = Some i.
Proof.
  induction l as [|y l IH]; intros Hin; [destruct Hin|]. simpl.
  destruct (Waypoint_eq y w) eqn:E; [now exists O|].
  destruct Hin as [->|Hin].
  - unfold Waypoint_eq in E. now rewrite Nat.eqb_refl in E.
  - destruct (IH Hin) as [i ->]. now exists (S i).
Qed.

Lemma skipn_past (pre post : list Waypoint) (w : Waypoint) :
  skipn (List.length pre + 1) (pre ++ w :: post) = post.
Proof.
  induction pre as [|y pre IH]; simpl; [reflexivity | exact IH].
Qed.

Section HandleRedirect.

Context {W : Type} {env : Env W}.

(** Unfolds the monadic plumbing of a run. *)
Ltac run :=
  unfold handle_redirect, wait_valid_dest, at_route_start, current_location,
    deref, try_except, call, bind, ret, raise, gets in *; simpl in *.

Lemma handle_redirect_auth io vd t route (s : State W) :
  substr_in AUTH_URL (location s) = true ->
  handle_redirect io vd t route s = call call_wait_for_auth wait_for_auth s.
Proof. intros H. run. now rewrite H. Qed.

Lemma handle_redirect_oos io vd t route (s : State W) :
  substr_in AUTH_URL (location s) = false ->
  substr_in OOS_URL (location s) = true ->
  handle_redirect io vd t route s =
  call (call_handle_oos io) (handle_oos io) s.
Proof. intros H1 H2. run. now rewrite H1, H2. Qed.

Lemma handle_redirect_throttle io vd t route (s : State W) :
  substr_in AUTH_URL (location s) = false ->
  substr_in OOS_URL (location s) = false ->
  substr_in THROTTLE_URL (location s) = true ->
  handle_redirect io vd t route s =
  (call call_handle_throttle handle_throttle ;;
   raise (RouteRedirect (Some "Redirected after throttle"))) s.
Proof. intros H1 H2 H3. run. now rewrite H1, H2, H3. Qed.

Lemma handle_redirect_start_loop io vd t r (s : State W) :
  substr_in AUTH_URL (location s) = false ->
  substr_in OOS_URL (location s) = false ->
  substr_in THROTTLE_URL (location s) = false ->
  Route_truthy (heap s r) = true ->
  location s = route_start (heap s r) ->
  handle_redirect io vd t (Some r) s =
  ((if negb (int_truthy (waypoints_reached (heap s r)))
    then call call_refresh driver_refresh else ret tt) ;;
   raise (RouteRedirect None)) s.
Proof.
  intros H1 H2 H3 H4 H5. run. rewrite H1, H2, H3, H4, H5.
  now rewrite String.eqb_refl.
Qed.

Lemma handle_redirect_generic io vd t route (s : State W) :
  substr_in AUTH_URL (location s) = false ->
  substr_in OOS_URL (location s) = false ->
  substr_in THROTTLE_URL (location s) = false ->
  match route with
  | Some r =>
      Route_truthy (heap s r) &&
      String.eqb (location s) (route_start (heap s r))
  | None => false
  end = false ->
  handle_redirect io vd t route s = wait_valid_dest vd t s.
Proof.
  intros H1 H2 H3 H4. run. rewrite H1, H2, H3.
  destruct route as [r|]; [now rewrite H4 | reflexivity].
Qed.

Lemma call_heap {A} c (op : W -> Reply W A) (s : State W) :
  heap (final (call c op s)) = heap s.
Proof. unfold call. now destruct (op (driver s)). Qed.

Lemma call_calls {A} c (op : W -> Reply W A) (s : State W) :
  calls (final (call c op s)) = (calls s ++ [c])%list.
Proof. unfold call. now destruct (op (driver s)). Qed.

Lemma wait_valid_dest_heap vd t (s : State W) :
  heap (final (wait_valid_dest vd t s)) = heap s.
Proof.
  run. destruct vd as [vd|], t as [t|]; try reflexivity.
  destruct (list_truthy vd && int_truthy t); [|reflexivity].
  destruct (wait_url_matches _ _ _) as [a w|e w]; [reflexivity|].
  now destruct e.
Qed.

Lemma handle_redirect_heap io vd t route (s : State W) :
  heap (final (handle_redirect io vd t route s)) = heap s.
Proof.
  destruct (substr_in AUTH_URL (location s)) eqn:H1.
  { rewrite handle_redirect_auth by exact H1. apply call_heap. }
  destruct (substr_in OOS_URL (location s)) eqn:H2.
  { rewrite handle_redirect_oos by assumption. apply call_heap. }
  destruct (substr_in THROTTLE_URL (location s))
    eqn:H3.
  { rewrite handle_redirect_throttle by assumption.
    run. now destruct (handle_throttle (driver s)). }
  destruct (match route with
            | Some r =>
                Route_truthy (heap s r) &&
                String.eqb (location s)
                           (route_start (heap s r))
            | None => false
            end) eqn:H4.
  - destruct route as [r|]; [|discriminate].
    apply andb_true_iff in H4 as [H4 H5]. apply String.eqb_eq in H5.
    rewrite handle_redirect_start_loop by assumption.
    run. destruct (negb _); [|reflexivity].
    now destruct (driver_refresh (driver s)).
  - rewrite handle_redirect_generic by assumption.
    apply wait_valid_dest_heap.
Qed.

Lemma wait_valid_dest_absent t (s : State W) :
  wait_valid_dest None t s = Raise (UnhandledRedirect None) s.
Proof. reflexivity. Qed.

(** When the wait for a valid destination times out, the exception quotes
    the raw location read after the wait. *)
Lemma wait_valid_dest_timed_out vd t (s : State W) w :
  list_truthy vd = true ->
  int_truthy t = true ->
  wait_url_matches (join "|" vd) t (driver s) = Throws TimeoutException w ->
  wait_valid_dest (Some vd) (Some t) s =
  Raise (UnhandledRedirect (Some (timeout_message (current_url w))))
        {| driver := w; heap := heap s;
           calls := calls s ++ [call_wait_url_matches (join "|" vd) t] |}.
Proof.
  intros H1 H2 H3. unfold wait_valid_dest. rewrite H1, H2. cbn [andb].
  unfold try_except, call. now rewrite H3.
Qed.

(** The rule table, evaluated: each rule is reached only when every
    earlier one does not apply. *)
Lemma spec_classify_cases current rt vd t :
  spec_classify current rt vd t =
  if substr_in AUTH_URL current then rule_auth
  else if substr_in OOS_URL current then rule_oos
  else if substr_in THROTTLE_URL current then rule_throttle
  else if spec_rule_applies current rt vd t rule_start_loop
       then rule_start_loop
  else if spec_rule_applies current rt vd t rule_valid_dest
       then rule_valid_dest
  else rule_unhandled.
Proof.
  unfold spec_classify, spec_decision_order. cbn [find].
  cbn [spec_rule_applies].
  repeat match goal with
         | |- context [if ?b then _ else _] => destruct b; try reflexivity
         end.
Qed.

Lemma wait_valid_dest_rules current io rt vd t (s : State W) :
  wait_valid_dest vd t s =
  spec_recover
    (if spec_rule_applies current rt vd t rule_valid_dest
     then rule_valid_dest else rule_unhandled) io rt vd t s.
Proof.
  cbn [spec_rule_applies]. unfold wait_valid_dest.
  destruct vd as [vd|], t as [t|]; try reflexivity.
  destruct (list_truthy vd && int_truthy t); [|reflexivity].
  cbn [spec_recover]. unfold try_except, call, bind, gets, raise.
  destruct (wait_url_matches _ _ _) as [[] w|e w]; [reflexivity|].
  now destruct e.
Qed.

(** C3. [handle_redirect] decides by an ordered list of rules, the first
    that applies winning: authentication, out of stock, throttle, loop-back
    to the start of the route, wait for a valid destination, and otherwise
    [UnhandledRedirect].  In particular, at a location that matches the
    throttle pattern and is also the start of the route in context (and
    that no earlier rule claims), the throttle handler runs and
    [RouteRedirect] is raised with the throttle message; and whenever the
    throttle pattern matches, the one call made to the outside is never the
    reload of the loop-back rule. *)
Theorem handle_redirect_first_match_wins io vd t route (s : State W) :
  handle_redirect io vd t route s =
  spec_recover
    (spec_classify (location s) (option_map (heap s) route) vd t)
    io (option_map (heap s) route) vd t s
  /\
  (substr_in THROTTLE_URL (location s) = true ->
   spec_rule_applies (location s) (option_map (heap s) route) vd t
     rule_start_loop = true ->
   substr_in AUTH_URL (location s) = false ->
   substr_in OOS_URL (location s) = false ->
   handle_redirect io vd t route s =
   match handle_throttle (driver s) with
   | Returns _ w =>
       Raise (RouteRedirect (Some "Redirected after throttle"))
             {| driver := w; heap := heap s;
                calls := calls s ++ [call_handle_throttle] |}
   | Throws e w =>
       Raise e {| driver := w; heap := heap s;
                  calls := calls s ++ [call_handle_throttle] |}
   end)
  /\
  (substr_in THROTTLE_URL (location s) = true ->
   exists c,
     calls (final (handle_redirect io vd t route s)) = (calls s ++ [c])%list
     /\ c <> call_refresh).
Proof.
  split; [|split].
  - rewrite spec_classify_cases.
    destruct (substr_in AUTH_URL (location s)) eqn:H1.
    { now apply handle_redirect_auth. }
    destruct (substr_in OOS_URL (location s)) eqn:H2.
    { now apply handle_redirect_oos. }
    destruct (substr_in THROTTLE_URL (location s)) eqn:H3.
    { now apply handle_redirect_throttle. }
    destruct route as [r|]; cbn [option_map].
    + destruct (spec_rule_applies (location s) (Some (heap s r)) vd t
                  rule_start_loop) eqn:H4; cbn [spec_rule_applies] in H4.
      * apply andb_true_iff in H4 as [H4 H5]. apply String.eqb_eq in H5.
        rewrite handle_redirect_start_loop by assumption.
        cbn [spec_recover]. unfold int_truthy. now rewrite negb_involutive.
      * rewrite handle_redirect_generic by assumption.
        apply wait_valid_dest_rules.
    + rewrite handle_redirect_generic by auto.
      change (spec_rule_applies (location s) None vd t rule_start_loop)
        with false.
      apply wait_valid_dest_rules.
  - intros H3 _ H1 H2. rewrite handle_redirect_throttle by assumption.
    run. now destruct (handle_throttle (driver s)) as [[] w|e w].
  - intros H3.
    destruct (substr_in AUTH_URL (location s)) eqn:H1.
    { rewrite handle_redirect_auth by assumption.
      exists call_wait_for_auth. split; [apply call_calls | discriminate]. }
    destruct (substr_in OOS_URL (location s)) eqn:H2.
    { rewrite handle_redirect_oos by assumption.
      exists (call_handle_oos io). split; [apply call_calls | discriminate]. }
    rewrite handle_redirect_throttle by assumption.
    exists call_handle_throttle. split; [|discriminate].
    run. now destruct (handle_throttle (driver s)).
Qed.

(** C10. The authentication, out-of-stock and throttle patterns are matched
    by occurrence anywhere in the normalized location: whatever text
    surrounds the pattern, the corresponding handler is the one called,
    each pattern after the ones before it (the out-of-stock handler when
    the authentication pattern occurs nowhere in the location, the throttle
    handler when neither of the other two does), for any route,
    destinations and timeout, hence also when the location is the start of
    the route. *)
Theorem handle_redirect_matches_by_containment io vd t route (s : State W)
    (pre post : string) :
  (location s = pre ++ AUTH_URL ++ post ->
   handle_redirect io vd t route s = call call_wait_for_auth wait_for_auth s)
  /\
  (location s = pre ++ OOS_URL ++ post ->
   ~ occurs_in AUTH_URL (location s) ->
   handle_redirect io vd t route s =
   call (call_handle_oos io) (handle_oos io) s)
  /\
  (location s = pre ++ THROTTLE_URL ++ post ->
   ~ occurs_in AUTH_URL (location s) ->
   ~ occurs_in OOS_URL (location s) ->
   handle_redirect io vd t route s =
   (call call_handle_throttle handle_throttle ;;
    raise (RouteRedirect (Some "Redirected after throttle"))) s).
Proof.
  repeat split.
  - intros H. apply handle_redirect_auth. rewrite H. apply substr_in_occurs.
  - intros H H1. apply handle_redirect_oos.
    + now apply substr_in_absent.
    + rewrite H. apply substr_in_occurs.
  - intros H H1 H2. apply handle_redirect_throttle.
    + now apply substr_in_absent.
    + now apply substr_in_absent.
    + rewrite H. apply substr_in_occurs.
Qed.

(** C1, as the code has it.  With a route of at least one waypoint in
    context, at a location equal to the start of that route which matches
    none of the three patterns, a positive progress counter only suppresses
    the reload: nothing is called, the state is left as it was, and
    [RouteRedirect] is raised whatever destinations and timeout were
    passed. *)
Theorem handle_redirect_start_after_progress io vd t r (s : State W) :
  substr_in AUTH_URL (location s) = false ->
  substr_in OOS_URL (location s) = false ->
  substr_in THROTTLE_URL (location s) = false ->
  Route_truthy (heap s r) = true ->
  location s = route_start (heap s r) ->
  0 < waypoints_reached (heap s r) ->
  handle_redirect io vd t (Some r) s = Raise (RouteRedirect None) s.
Proof.
  intros H1 H2 H3 H4 H5 H6.
  rewrite handle_redirect_start_loop by assumption.
  unfold int_truthy.
  destruct (Z.eqb_spec (waypoints_reached (heap s r)) 0) as [E|_]; [lia|].
  reflexivity.
Qed.

(** C9. [handle_redirect] assigns to no attribute of the route it is
    given: whether it returns or raises, the objects on the heap, and so the
    counter, the waypoints and the start of that route, are as before. *)
Theorem handle_redirect_leaves_route_untouched io vd t r (s : State W) :
  heap (final (handle_redirect io vd t (Some r) s)) = heap s
  /\
  waypoints_reached (heap (final (handle_redirect io vd t (Some r) s)) r) =
  waypoints_reached (heap s r)
  /\
  waypoints (heap (final (handle_redirect io vd t (Some r) s)) r) =
  waypoints (heap s r)
  /\
  route_start (heap (final (handle_redirect io vd t (Some r) s)) r) =
  route_start (heap s r).
Proof.
  rewrite handle_redirect_heap. repeat split.
Qed.

End HandleRedirect.

Section Navigate.

Context {W : Type} {env : Env W}.

(** Case analysis on the next reply of the outside in a run. *)
Ltac reply :=
  match goal with
  | |- context [match ?op with Returns _ _ => _ | Throws _ _ => _ end] =>
      let e := fresh "e" in
      destruct op as [? ?|e ?]; cbn [final heap driver calls];
      try reflexivity
  end.

Lemma landing_test (base current : string) (waypoint : Waypoint)
    (vd : list string) :
  String.eqb current (base ++ dest waypoint) ||
  (list_truthy vd && existsb (fun d => substr_in d current) vd) = true <->
  lands_on base current waypoint vd.
Proof.
  unfold lands_on.
  rewrite orb_true_iff, andb_true_iff, String.eqb_eq, existsb_exists.
  split.
  - intros [H | [_ [d [Hin Hsub]]]]; [now left | right].
    exists d. split; [exact Hin | now apply substr_in_iff].
  - intros [H | [d [Hin Hsub]]]; [now left | right]. split.
    + destruct vd; [destruct Hin | reflexivity].
    + exists d. split; [exact Hin | now apply substr_in_iff].
Qed.

Lemma navigate_waypoint_lands self waypoint timeout vd (s : State W) e w' :
  click_and_wait waypoint timeout e (driver s) w' ->
  navigate_waypoint self waypoint timeout vd s =
  if String.eqb (remove_qs (current_url w')) (BASE_URL ++ dest waypoint) ||
     (list_truthy vd &&
      existsb (fun d => substr_in d (remove_qs (current_url w'))) vd)
  then Ok tt (landed s waypoint timeout e w')
  else Raise (navigation_failed waypoint) (landed s waypoint timeout e w').
Proof.
  intros (w1 & w2 & w3 & H1 & H2 & H3 & H4).
  unfold navigate_waypoint, current_location, location, try_except, call,
    bind, ret, raise, gets, landed, navigation_failed.
  cbn [driver heap calls]. rewrite H1. cbn [driver heap calls]. rewrite H2.
  cbn [driver heap calls]. rewrite H3. cbn [driver heap calls].
  repeat rewrite <- app_assoc. cbn [app].
  destruct H4 as [H4|H4]; rewrite H4; cbn [is_TimeoutException driver];
    destruct (String.eqb _ _); cbn [orb]; try reflexivity;
    destruct (list_truthy vd && _); reflexivity.
Qed.

Lemma navigate_waypoint_heap self waypoint timeout vd (s : State W) :
  heap (final (navigate_waypoint self waypoint timeout vd s)) = heap s.
Proof.
  unfold navigate_waypoint, current_location, location, try_except, call,
    bind, ret, raise, gets.
  repeat reply.
  - destruct (String.eqb _ _); [reflexivity|].
    destruct (list_truthy vd && _); reflexivity.
  - destruct (is_TimeoutException e); [|reflexivity].
    cbn [driver]. destruct (String.eqb _ _); [reflexivity|].
    destruct (list_truthy vd && _); reflexivity.
Qed.

Lemma later_dests_state self waypoint (s : State W) :
  final (later_dests self waypoint s) = s.
Proof.
  unfold later_dests, deref, bind, gets, ret, raise.
  now destruct (index _ _).
Qed.

Lemma attempt_heap self timeout waypoint (s : State W) :
  heap (final (attempt self timeout waypoint s)) = heap s.
Proof.
  unfold attempt, bind at 1.
  pose proof (later_dests_state self waypoint s) as Hs.
  destruct (later_dests self waypoint s) as [vd s0|e s0];
    cbn [final] in Hs; subst s0; [|reflexivity].
  unfold try_except, bind, current_location, gets, ret, deref.
  destruct (String.eqb _ _); [reflexivity|].
  pose proof (navigate_waypoint_heap self waypoint timeout vd s) as Hn.
  destruct (navigate_waypoint self waypoint timeout vd s) as [[] s1|e s1];
    cbn [final] in Hn; [exact Hn|].
  destruct (is_NavigationException e); [|exact Hn].
  unfold gets. cbv beta iota. rewrite handle_redirect_heap. exact Hn.
Qed.

(** Distinct waypoint objects: the destinations handed to the hop are those
    of the waypoints after it. *)
Lemma later_dests_distinct self (s : State W) pre waypoint post :
  waypoints (heap s self) = (pre ++ waypoint :: post)%list ->
  (forall x, In x pre -> wp_id x <> wp_id waypoint) ->
  later_dests self waypoint s = Ok (map dest post) s.
Proof.
  intros Hw Hpre.
  unfold later_dests, deref, bind, gets, ret. rewrite Hw.
  rewrite index_first by exact Hpre.
  now rewrite skipn_past.
Qed.

Lemma later_dests_member self (s : State W) waypoint :
  In waypoint (waypoints (heap s self)) ->
  exists vd, later_dests self waypoint s = Ok vd s.
Proof.
  intros Hin. destruct (index_member _ _ Hin) as [i Hi].
  unfold later_dests, deref, bind, gets, ret. rewrite Hi. eauto.
Qed.

Lemma bump_reached self (s : State W) :
  waypoints_reached (heap (bump self s) self) =
  waypoints_reached (heap s self) + 1.
Proof. unfold bump, store. cbn. now rewrite Nat.eqb_refl. Qed.

Lemma bump_waypoints self (s : State W) :
  waypoints (heap (bump self s) self) = waypoints (heap s self).
Proof. unfold bump, store. cbn. now rewrite Nat.eqb_refl. Qed.

Lemma navigate_body_unfold self timeout waypoint (s : State W) :
  navigate_body self timeout waypoint s =
  match attempt self timeout waypoint s with
  | Ok _ s1 => Ok tt (bump self s1)
  | Raise e s1 => Raise e s1
  end.
Proof. reflexivity. Qed.

Lemma navigate_body_reached self timeout waypoint (s : State W) :
  waypoints_reached
    (heap (final (navigate_body self timeout waypoint s)) self) =
  waypoints_reached (heap s self) +
  (if returned (attempt self timeout waypoint s) then 1 else 0).
Proof.
  rewrite navigate_body_unfold.
  pose proof (attempt_heap self timeout waypoint s) as Hh.
  destruct (attempt self timeout waypoint s) as [[] s1|e s1];
    cbn [final returned] in *.
  - rewrite bump_reached. now rewrite Hh.
  - rewrite Hh. lia.
Qed.

(** The loop adds to the counter the number of iterations that ran to
    their end; it returns only if all of them did. *)
Lemma for_each_reached self timeout wps (s : State W) :
  waypoints_reached
    (heap (final (for_each wps (navigate_body self timeout) s)) self) =
  waypoints_reached (heap s self) +
  Z.of_nat (completed self timeout wps s)
  /\
  (returned (for_each wps (navigate_body self timeout) s) = true ->
   completed self timeout wps s = List.length wps).
Proof.
  revert s. induction wps as [|w wps IH]; intros s.
  - cbn. split; [lia | reflexivity].
  - cbn [for_each completed]. unfold bind.
    rewrite navigate_body_unfold.
    pose proof (attempt_heap self timeout w s) as Hh.
    destruct (attempt self timeout w s) as [[] s1|e s1];
      cbn [final returned] in *.
    + destruct (IH (bump self s1)) as [IH1 IH2]. split.
      * rewrite IH1, bump_reached, Hh. lia.
      * intros Hr. cbn [List.length]. now rewrite IH2.
    + split; [rewrite Hh; cbn; lia | discriminate].
Qed.

Lemma navigate_entry_heap self (s : State W) :
  heap (final (navigate_entry self s)) self = set_reached (heap s self) 0.
Proof.
  unfold navigate_entry, assign_reached, current_location, deref, call,
    bind, gets, ret.
  destruct (negb _); [reply|]; cbn; now rewrite Nat.eqb_refl.
Qed.

Lemma navigate_unfold self timeout (s : State W) :
  navigate self timeout s =
  match navigate_entry self s with
  | Ok _ s0 =>
      for_each (waypoints (heap s self)) (navigate_body self timeout) s0
  | Raise e s0 => Raise e s0
  end.
Proof.
  unfold navigate, bind at 1.
  pose proof (navigate_entry_heap self s) as Hh.
  destruct (navigate_entry self s) as [[] s0|e s0]; [|reflexivity].
  cbn [final] in Hh. unfold bind, deref, gets. now rewrite Hh.
Qed.

(** C2. [navigate] resets the counter on entry.  Each iteration of its loop
    adds exactly one to it when its [try] statement returns, whether the
    hop was skipped, made directly, or recovered by a [handle_redirect]
    that returned, and adds nothing when that statement raises, as when the
    recovery raises [RouteRedirect] or [UnhandledRedirect].  So the counter
    [navigate] leaves is the number of iterations that ran to their end,
    and the number of waypoints when [navigate] returns. *)
Theorem navigate_progress_counter self timeout (s : State W) :
  waypoints_reached (heap (final (navigate_entry self s)) self) = 0
  /\
  (forall waypoint s1,
     waypoints_reached
       (heap (final (navigate_body self timeout waypoint s1)) self) =
     waypoints_reached (heap s1 self) +
     (if returned (attempt self timeout waypoint s1) then 1 else 0))
  /\
  (forall waypoint s1 vd,
     later_dests self waypoint s1 = Ok vd s1 ->
     (location s1 = BASE_URL ++ dest waypoint ->
      navigate_body self timeout waypoint s1 = Ok tt (bump self s1))
     /\
     (forall s2,
        location s1 <> BASE_URL ++ dest waypoint ->
        navigate_waypoint self waypoint timeout vd s1 = Ok tt s2 ->
        navigate_body self timeout waypoint s1 = Ok tt (bump self s2))
     /\
     (forall m s2 s3,
        location s1 <> BASE_URL ++ dest waypoint ->
        navigate_waypoint self waypoint timeout vd s1 =
          Raise (NavigationException m) s2 ->
        handle_redirect (ignore_oos (args (heap s2 self))) (Some vd)
          (Some timeout) (Some self) s2 = Ok tt s3 ->
        navigate_body self timeout waypoint s1 = Ok tt (bump self s3))
     /\
     (forall m s2 e s3,
        location s1 <> BASE_URL ++ dest waypoint ->
        navigate_waypoint self waypoint timeout vd s1 =
          Raise (NavigationException m) s2 ->
        handle_redirect (ignore_oos (args (heap s2 self))) (Some vd)
          (Some timeout) (Some self) s2 = Raise e s3 ->
        navigate_body self timeout waypoint s1 = Raise e s3 /\
        waypoints_reached (heap s3 self) =
        waypoints_reached (heap s1 self)))
  /\
  waypoints_reached (heap (final (navigate self timeout s)) self) =
  (if returned (navigate_entry self s)
   then Z.of_nat (completed self timeout (waypoints (heap s self))
                    (final (navigate_entry self s)))
   else 0)
  /\
  (returned (navigate self timeout s) = true ->
   waypoints_reached (heap (final (navigate self timeout s)) self) =
   Z.of_nat (List.length (waypoints (heap s self)))).
Proof.
  split; [|split; [|split; [|split]]].
  - now rewrite navigate_entry_heap.
  - intros waypoint s1. apply navigate_body_reached.
  - intros waypoint s1 vd Hvd.
    assert (Hb : navigate_body self timeout waypoint s1 =
                 match
                   try_except
                     (current <- current_location ;;
                      if String.eqb current (BASE_URL ++ dest waypoint)
                      then ret tt
                      else navigate_waypoint self waypoint timeout vd)
                     is_NavigationException
                     (rt <- deref self ;;
                      handle_redirect (ignore_oos (args rt)) (Some vd)
                        (Some timeout) (Some self)) s1
                 with
                 | Ok _ s2 => Ok tt (bump self s2)
                 | Raise e s2 => Raise e s2
                 end).
    { rewrite navigate_body_unfold. unfold attempt, bind at 1.
      now rewrite Hvd. }
    rewrite Hb. unfold try_except, bind, current_location, deref, gets, ret.
    split; [|split; [|split]].
    + intros Hloc. rewrite Hloc. now rewrite String.eqb_refl.
    + intros s2 Hloc Hn. apply String.eqb_neq in Hloc. rewrite Hloc.
      now rewrite Hn.
    + intros m s2 s3 Hloc Hn Hr. apply String.eqb_neq in Hloc.
      rewrite Hloc, Hn. cbn [is_NavigationException]. now rewrite Hr.
    + intros m s2 e s3 Hloc Hn Hr. split.
      * apply String.eqb_neq in Hloc. rewrite Hloc, Hn.
        cbn [is_NavigationException]. now rewrite Hr.
      * pose proof (navigate_waypoint_heap self waypoint timeout vd s1)
          as H2.
        rewrite Hn in H2. cbn [final] in H2.
        pose proof (handle_redirect_heap
                      (ignore_oos (args (heap s2 self))) (Some vd)
                      (Some timeout) (Some self) s2) as H3.
        rewrite Hr in H3. cbn [final] in H3. now rewrite H3, H2.
  - rewrite navigate_unfold.
    pose proof (navigate_entry_heap self s) as Hh.
    destruct (navigate_entry self s) as [[] s0|e s0];
      cbn [final returned] in *.
    + destruct (for_each_reached self timeout (waypoints (heap s self)) s0)
        as [H1 _].
      rewrite H1, Hh. cbn. lia.
    + now rewrite Hh.
  - rewrite navigate_unfold.
    pose proof (navigate_entry_heap self s) as Hh.
    destruct (navigate_entry self s) as [[] s0|e s0];
      cbn [final returned] in *; [|discriminate].
    intros Hr.
    destruct (for_each_reached self timeout (waypoints (heap s self)) s0)
      as [H1 H2].
    rewrite H1, Hh, (H2 Hr). cbn. lia.
Qed.

(** C4, as the code has it.  Once the click-and-wait sequence has run to
    its end, [navigate_waypoint] returns exactly when the normalized
    location is [BASE_URL + waypoint.dest] (the address of the site, not the
    start of the route) or contains one of the valid destinations; in every
    other case it raises [NavigationException], which [navigate] catches. *)
Theorem navigate_waypoint_succeeds_iff self waypoint timeout vd
    (s : State W) e w' :
  click_and_wait waypoint timeout e (driver s) w' ->
  ((exists s', navigate_waypoint self waypoint timeout vd s = Ok tt s') <->
   lands_on BASE_URL (remove_qs (current_url w')) waypoint vd)
  /\
  (lands_on BASE_URL (remove_qs (current_url w')) waypoint vd ->
   navigate_waypoint self waypoint timeout vd s =
   Ok tt (landed s waypoint timeout e w'))
  /\
  (~ lands_on BASE_URL (remove_qs (current_url w')) waypoint vd ->
   navigate_waypoint self waypoint timeout vd s =
   Raise (navigation_failed waypoint) (landed s waypoint timeout e w') /\
   is_NavigationException (navigation_failed waypoint) = true).
Proof.
  intros Hseq. rewrite (navigate_waypoint_lands _ _ _ _ _ _ _ Hseq).
  pose proof (landing_test BASE_URL (remove_qs (current_url w')) waypoint vd)
    as Ht.
  destruct (String.eqb _ _ || _).
  - assert (Hl : lands_on BASE_URL (remove_qs (current_url w')) waypoint vd)
      by now apply Ht.
    split; [|split].
    + split; [intros _; exact Hl | intros _; eauto].
    + intros _. reflexivity.
    + intros Hn. contradiction.
  - assert (Hl : ~ lands_on BASE_URL (remove_qs (current_url w')) waypoint vd).
    { intros Hl. apply Ht in Hl. discriminate. }
    split; [|split].
    + split; [intros [s' Hs']; discriminate | intros Hy; contradiction].
    + intros Hy. contradiction.
    + intros _. split; reflexivity.
Qed.

(** C8. A timeout of the wait for the clicked element to go stale is
    swallowed: [navigate_waypoint] goes on to read the location, and its
    outcome is that of the landing test alone; it never raises the timeout,
    and it returns when the location passes the test. *)
Theorem staleness_timeout_is_tolerated self waypoint timeout vd
    (s : State W) e w1 w2 w3 w' :
  wait_for_element (locator waypoint) timeout (driver s) = Returns e w1 ->
  jitter w1 = Returns tt w2 ->
  click_when_enabled e w2 = Returns tt w3 ->
  wait_staleness e timeout w3 = Throws TimeoutException w' ->
  navigate_waypoint self waypoint timeout vd s =
  (if String.eqb (remove_qs (current_url w')) (BASE_URL ++ dest waypoint) ||
      (list_truthy vd &&
       existsb (fun d => substr_in d (remove_qs (current_url w'))) vd)
   then Ok tt (landed s waypoint timeout e w')
   else Raise (navigation_failed waypoint) (landed s waypoint timeout e w'))
  /\
  (forall s', navigate_waypoint self waypoint timeout vd s <>
              Raise TimeoutException s')
  /\
  (lands_on BASE_URL (remove_qs (current_url w')) waypoint vd ->
   navigate_waypoint self waypoint timeout vd s =
   Ok tt (landed s waypoint timeout e w')).
Proof.
  intros H1 H2 H3 H4.
  assert (Hseq : click_and_wait waypoint timeout e (driver s) w').
  { exists w1, w2, w3. auto. }
  rewrite (navigate_waypoint_lands _ _ _ _ _ _ _ Hseq).
  split; [reflexivity|]. split.
  - intros s'. destruct (String.eqb _ _ || _); discriminate.
  - intros Hl. apply landing_test in Hl. now rewrite Hl.
Qed.

(** C7, as the code has it.  At a waypoint of the route whose destination,
    taken from [BASE_URL], is where the browser already is, the iteration
    calls nothing: no click, the browser untouched; the counter is bumped
    and the loop goes on with the next waypoint. *)
Theorem navigate_skips_hop_at_dest self timeout waypoint rest
    (s : State W) :
  In waypoint (waypoints (heap s self)) ->
  location s = BASE_URL ++ dest waypoint ->
  navigate_body self timeout waypoint s = Ok tt (bump self s)
  /\
  calls (bump self s) = calls s
  /\
  driver (bump self s) = driver s
  /\
  for_each (waypoint :: rest) (navigate_body self timeout) s =
  for_each rest (navigate_body self timeout) (bump self s).
Proof.
  intros Hin Hloc.
  destruct (later_dests_member self s waypoint Hin) as [vd Hvd].
  assert (Hb : navigate_body self timeout waypoint s = Ok tt (bump self s)).
  { rewrite navigate_body_unfold. unfold attempt, bind at 1. rewrite Hvd.
    unfold try_except, bind, current_location, gets, ret.
    rewrite Hloc. now rewrite String.eqb_refl. }
  repeat split; try exact Hb.
  cbn [for_each]. unfold bind at 1. now rewrite Hb.
Qed.

End Navigate.

(** ** More on recovery *)

Section Recovery.

Context {W : Type} {env : Env W}.

(** The five ways through [handle_redirect], each under the tests that
    lead to it. *)
Lemma handle_redirect_cases (P : Res W unit -> Prop) io vd t route
    (s : State W) :
  (substr_in AUTH_URL (location s) = true ->
   P (call call_wait_for_auth wait_for_auth s)) ->
  (substr_in AUTH_URL (location s) = false ->
   substr_in OOS_URL (location s) = true ->
   P (call (call_handle_oos io) (handle_oos io) s)) ->
  (substr_in AUTH_URL (location s) = false ->
   substr_in OOS_URL (location s) = false ->
   substr_in THROTTLE_URL (location s) = true ->
   P ((call call_handle_throttle handle_throttle ;;
       raise (RouteRedirect (Some "Redirected after throttle"))) s)) ->
  (forall r,
     route = Some r ->
     substr_in AUTH_URL (location s) = false ->
     substr_in OOS_URL (location s) = false ->
     substr_in THROTTLE_URL (location s) = false ->
     Route_truthy (heap s r) = true ->
     location s = route_start (heap s r) ->
     P (((if negb (int_truthy (waypoints_reached (heap s r)))
          then call call_refresh driver_refresh else ret tt) ;;
         raise (RouteRedirect None)) s)) ->
  (substr_in AUTH_URL (location s) = false ->
   substr_in OOS_URL (location s) = false ->
   substr_in THROTTLE_URL (location s) = false ->
   match route with
   | Some r =>
       Route_truthy (heap s r) &&
       String.eqb (location s) (route_start (heap s r))
   | None => false
   end = false ->
   P (wait_valid_dest vd t s)) ->
  P (handle_redirect io vd t route s).
Proof.
  intros Ha Ho Ht Hl Hg.
  destruct (substr_in AUTH_URL (location s)) eqn:H1.
  { rewrite handle_redirect_auth by exact H1. now apply Ha. }
  destruct (substr_in OOS_URL (location s)) eqn:H2.
  { rewrite handle_redirect_oos by assumption. now apply Ho. }
  destruct (substr_in THROTTLE_URL (location s)) eqn:H3.
  { rewrite handle_redirect_throttle by assumption. now apply Ht. }
  destruct (match route with
            | Some r =>
                Route_truthy (heap s r) &&
                String.eqb (location s) (route_start (heap s r))
            | None => false
            end) eqn:H4.
  - destruct route as [r|]; [|discriminate].
    apply andb_true_iff in H4 as [H4 H5]. apply String.eqb_eq in H5.
    rewrite handle_redirect_start_loop by assumption. now apply (Hl r).
  - rewrite handle_redirect_generic by assumption. now apply Hg.
Qed.

Lemma call_shape {A} c (op : W -> Reply W A) (s : State W) :
  calls (final (call c op s)) = (calls s ++ [c])%list /\
  heap (final (call c op s)) = heap s.
Proof. unfold call. now destruct (op (driver s)). Qed.

Lemma wait_valid_dest_shape vd t (s : State W) :
  wait_valid_dest vd t s = Raise (UnhandledRedirect None) s \/
  exists vd' t',
    vd = Some vd' /\ t = Some t' /\
    calls (final (wait_valid_dest vd t s)) =
    (calls s ++ [call_wait_url_matches (join "|" vd') t'])%list.
Proof.
  unfold wait_valid_dest.
  destruct vd as [vd|], t as [t|]; try (now left).
  destruct (list_truthy vd && int_truthy t); [|now left].
  right. exists vd, t. repeat split.
  unfold try_except, call, bind, gets, raise.
  destruct (wait_url_matches _ _ _) as [[] w|e w]; [reflexivity|].
  now destruct e.
Qed.

(** X1. [handle_redirect] calls the outside at most once, and only a
    handler, the reload or the wait for a valid destination: it never
    clicks, loads a page or looks for an element.  When it calls nothing it
    leaves the browser as it was and raises. *)
Theorem handle_redirect_calls_outside_at_most_once io vd t route
    (s : State W) :
  (calls (final (handle_redirect io vd t route s)) = calls s /\
   driver (final (handle_redirect io vd t route s)) = driver s /\
   returned (handle_redirect io vd t route s) = false)
  \/
  (exists c,
     calls (final (handle_redirect io vd t route s)) = (calls s ++ [c])%list
     /\ recovery_call c = true).
Proof.
  apply handle_redirect_cases.
  - intros _. right. exists call_wait_for_auth.
    split; [apply call_shape | reflexivity].
  - intros _ _. right. exists (call_handle_oos io).
    split; [apply call_shape | reflexivity].
  - intros _ _ _. right. exists call_handle_throttle. split; [|reflexivity].
    unfold bind, call, raise. now destruct (handle_throttle (driver s)).
  - intros r _ _ _ _ _ _.
    destruct (negb (int_truthy (waypoints_reached (heap s r)))).
    + right. exists call_refresh. split; [|reflexivity].
      unfold bind, call, raise. now destruct (driver_refresh (driver s)).
    + left. repeat split.
  - intros _ _ _ _.
    destruct (wait_valid_dest_shape vd t s) as [E | (vd' & t' & _ & _ & E)].
    + left. rewrite E. repeat split.
    + right. eexists. split; [exact E | reflexivity].
Qed.

(** X2. [handle_redirect] returns only after waiting for authentication,
    after the out-of-stock handler, or after the wait for a valid
    destination.  On a throttle page, and on a bounce to the start of the
    route in context, it never returns (when neither the authentication nor
    the out-of-stock pattern occurs in the location), whatever destinations
    and timeout the caller passed: the loop of [navigate] never goes on
    from there. *)
Theorem handle_redirect_returns_only_when_recovered io vd t route
    (s : State W) :
  (returned (handle_redirect io vd t route s) = true ->
   exists c,
     calls (final (handle_redirect io vd t route s)) = (calls s ++ [c])%list
     /\
     ((c = call_wait_for_auth /\ substr_in AUTH_URL (location s) = true) \/
      (c = call_handle_oos io /\ substr_in OOS_URL (location s) = true) \/
      (exists vd' t',
         vd = Some vd' /\ t = Some t' /\
         c = call_wait_url_matches (join "|" vd') t' /\
         substr_in THROTTLE_URL (location s) = false)))
  /\
  (occurs_in THROTTLE_URL (location s) ->
   ~ occurs_in AUTH_URL (location s) ->
   ~ occurs_in OOS_URL (location s) ->
   returned (handle_redirect io vd t route s) = false)
  /\
  (forall r,
     route = Some r ->
     waypoints (heap s r) <> [] ->
     location s = route_start (heap s r) ->
     ~ occurs_in AUTH_URL (location s) ->
     ~ occurs_in OOS_URL (location s) ->
     returned (handle_redirect io vd t route s) = false).
Proof.
  split; [|split].
  - apply handle_redirect_cases.
    + intros H _. exists call_wait_for_auth.
      split; [apply call_shape | auto].
    + intros _ H _. exists (call_handle_oos io).
      split; [apply call_shape | auto].
    + intros _ _ _. unfold bind, call, raise.
      destruct (handle_throttle (driver s)); discriminate.
    + intros r _ _ _ _ _ _. unfold bind, call, raise, ret.
      destruct (negb _); [|discriminate].
      destruct (driver_refresh (driver s)); discriminate.
    + intros _ _ H3 _ Hr.
      destruct (wait_valid_dest_shape vd t s)
        as [E | (vd' & t' & E1 & E2 & E)].
      * rewrite E in Hr. discriminate.
      * eexists. split; [exact E|]. right. right. exists vd', t'. auto.
  - intros Ht Ha Ho.
    apply substr_in_iff in Ht.
    rewrite handle_redirect_throttle;
      [| now apply substr_in_absent | now apply substr_in_absent | exact Ht].
    unfold bind, call, raise.
    now destruct (handle_throttle (driver s)).
  - intros r -> Hw Hl Ha Ho.
    apply substr_in_absent in Ha. apply substr_in_absent in Ho.
    destruct (substr_in THROTTLE_URL (location s)) eqn:Ht.
    + rewrite handle_redirect_throttle by assumption.
      unfold bind, call, raise.
      now destruct (handle_throttle (driver s)).
    + rewrite handle_redirect_start_loop; try assumption.
      * unfold bind, call, raise, ret.
        destruct (negb _); [|reflexivity].
        now destruct (driver_refresh (driver s)).
      * unfold Route_truthy, Route_len.
        now destruct (waypoints (heap s r)).
Qed.

(** X3. Away from the three patterns and from the start of the route, a
    call without destinations to wait for is fatal at once: with
    [valid_dest] absent or empty, or [timeout] absent or zero,
    [handle_redirect] raises [UnhandledRedirect] without arguments and
    calls nothing. *)
Theorem handle_redirect_without_destinations_is_fatal io vd t route
    (s : State W) :
  substr_in AUTH_URL (location s) = false ->
  substr_in OOS_URL (location s) = false ->
  substr_in THROTTLE_URL (location s) = false ->
  match route with
  | Some r =>
      Route_truthy (heap s r) &&
      String.eqb (location s) (route_start (heap s r))
  | None => false
  end = false ->
  vd = None \/ vd = Some [] \/ t = None \/ t = Some 0 ->
  handle_redirect io vd t route s = Raise (UnhandledRedirect None) s.
Proof.
  intros H1 H2 H3 H4 Hd.
  rewrite handle_redirect_generic by assumption.
  unfold wait_valid_dest.
  destruct Hd as [-> | [-> | [-> | ->]]]; try reflexivity.
  - now destruct t.
  - now destruct vd.
  - destruct vd as [vd|]; [|reflexivity].
    now rewrite andb_false_r.
Qed.

(** X4. When the wait for a valid destination times out, the
    [UnhandledRedirect] raised quotes the address the browser is at after
    the wait, as the driver gives it, query string included. *)
Theorem handle_redirect_timeout_quotes_raw_url io vd t route (s : State W)
    w :
  substr_in AUTH_URL (location s) = false ->
  substr_in OOS_URL (location s) = false ->
  substr_in THROTTLE_URL (location s) = false ->
  match route with
  | Some r =>
      Route_truthy (heap s r) &&
      String.eqb (location s) (route_start (heap s r))
  | None => false
  end = false ->
  vd <> [] ->
  t <> 0 ->
  wait_url_matches (join "|" vd) t (driver s) = Throws TimeoutException w ->
  handle_redirect io (Some vd) (Some t) route s =
  Raise (UnhandledRedirect (Some (timeout_message (current_url w))))
        {| driver := w; heap := heap s;
           calls := calls s ++ [call_wait_url_matches (join "|" vd) t] |}
  /\
  substr_in (current_url w) (timeout_message (current_url w)) = true.
Proof.
  intros H1 H2 H3 H4 Hvd Ht Hw. split.
  - rewrite handle_redirect_generic by assumption.
    apply wait_valid_dest_timed_out; [| |exact Hw].
    + destruct vd; [contradiction | reflexivity].
    + unfold int_truthy. now destruct (Z.eqb_spec t 0).
  - apply substr_in_iff.
    exists ("Timed out waiting for redirect to a valid dest" ++ newline ++
            "Current URL: '"), "'".
    reflexivity.
Qed.

(** X5. The wait for a valid destination decides the recovery: when it
    returns, [handle_redirect] returns; an exception of the wait other than
    the timeout passes through unchanged. *)
Theorem handle_redirect_wait_outcome io vd t route (s : State W) :
  substr_in AUTH_URL (location s) = false ->
  substr_in OOS_URL (location s) = false ->
  substr_in THROTTLE_URL (location s) = false ->
  match route with
  | Some r =>
      Route_truthy (heap s r) &&
      String.eqb (location s) (route_start (heap s r))
  | None => false
  end = false ->
  vd <> [] ->
  t <> 0 ->
  handle_redirect io (Some vd) (Some t) route s =
  match wait_url_matches (join "|" vd) t (driver s) with
  | Returns _ w =>
      Ok tt {| driver := w; heap := heap s;
               calls := calls s ++ [call_wait_url_matches (join "|" vd) t] |}
  | Throws e w =>
      Raise (if is_TimeoutException e
             then UnhandledRedirect (Some (timeout_message (current_url w)))
             else e)
            {| driver := w; heap := heap s;
               calls := calls s ++ [call_wait_url_matches (join "|" vd) t] |}
  end.
Proof.
  intros H1 H2 H3 H4 Hvd Ht.
  rewrite handle_redirect_generic by assumption.
  unfold wait_valid_dest.
  assert (E1 : list_truthy vd = true) by (destruct vd; [contradiction | reflexivity]).
  assert (E2 : int_truthy t = true)
    by (unfold int_truthy; now destruct (Z.eqb_spec t 0)).
  rewrite E1, E2. cbn [andb]. unfold try_except, call, bind, gets, raise.
  destruct (wait_url_matches _ _ _) as [[] w|e w]; [reflexivity|].
  now destruct e.
Qed.

(** X6. A route without waypoints counts as no route: [Route] defines
    [__len__], so such a route is false in [route and ...], and
    [handle_redirect] behaves as if [route] had been left out, even at the
    start of that route. *)
Theorem handle_redirect_empty_route_is_no_route io vd t r (s : State W) :
  waypoints (heap s r) = [] ->
  handle_redirect io vd t (Some r) s = handle_redirect io vd t None s.
Proof.
  intros He.
  destruct (substr_in AUTH_URL (location s)) eqn:H1.
  { now rewrite !handle_redirect_auth. }
  destruct (substr_in OOS_URL (location s)) eqn:H2.
  { now rewrite !handle_redirect_oos. }
  destruct (substr_in THROTTLE_URL (location s)) eqn:H3.
  { now rewrite !handle_redirect_throttle. }
  rewrite !handle_redirect_generic; try assumption; try reflexivity.
  unfold Route_truthy, Route_len. now rewrite He.
Qed.

(** X7. Bounced to the start of the route before any waypoint was passed,
    [handle_redirect] reloads the page once and raises [RouteRedirect]; if
    the reload raises, that exception is the one that comes out. *)
Theorem handle_redirect_reloads_at_start io vd t r (s : State W) :
  substr_in AUTH_URL (location s) = false ->
  substr_in OOS_URL (location s) = false ->
  substr_in THROTTLE_URL (location s) = false ->
  waypoints (heap s r) <> [] ->
  location s = route_start (heap s r) ->
  waypoints_reached (heap s r) = 0 ->
  handle_redirect io vd t (Some r) s =
  match driver_refresh (driver s) with
  | Returns _ w =>
      Raise (RouteRedirect None)
            {| driver := w; heap := heap s;
               calls := calls s ++ [call_refresh] |}
  | Throws e w =>
      Raise e {| driver := w; heap := heap s;
                 calls := calls s ++ [call_refresh] |}
  end.
Proof.
  intros H1 H2 H3 Hw Hl Hz.
  rewrite handle_redirect_start_loop; try assumption.
  - rewrite Hz. unfold bind, call, raise. cbn.
    now destruct (driver_refresh (driver s)).
  - unfold Route_truthy, Route_len. now destruct (waypoints (heap s r)).
Qed.

End Recovery.

(** ** More on the traversal *)

Section Traversal.

Context {W : Type} {env : Env W}.

Lemma clicks_app (l l' : list Call) :
  clicks (l ++ l') = (clicks l + clicks l')%nat.
Proof. unfold clicks. now rewrite filter_app, length_app. Qed.

Lemma loads_app (l l' : list Call) :
  loads (l ++ l') = (loads l + loads l')%nat.
Proof. unfold loads. now rewrite filter_app, length_app. Qed.

(** Counts the clicks and loads of the calls a run has added. *)
Ltac count :=
  cbn [final calls driver heap];
  repeat rewrite clicks_app; repeat rewrite loads_app;
  cbn; try lia.

Lemma handle_redirect_no_click io vd t route (s : State W) :
  clicks (calls (final (handle_redirect io vd t route s))) = clicks (calls s)
  /\
  loads (calls (final (handle_redirect io vd t route s))) = loads (calls s).
Proof.
  apply handle_redirect_cases.
  - intros _. rewrite (proj1 (call_shape _ _ _)). split; count.
  - intros _ _. rewrite (proj1 (call_shape _ _ _)). split; count.
  - intros _ _ _. unfold bind, call, raise.
    destruct (handle_throttle (driver s)); split; count.
  - intros r _ _ _ _ _ _. unfold bind, call, raise, ret.
    destruct (negb _); [|split; reflexivity].
    destruct (driver_refresh (driver s)); split; count.
  - intros _ _ _ _.
    destruct (wait_valid_dest_shape vd t s) as [E | (vd' & t' & _ & _ & E)].
    + rewrite E. split; reflexivity.
    + rewrite E. split; count.
Qed.

Lemma navigate_waypoint_one_click self waypoint timeout vd (s : State W) :
  (clicks (calls (final (navigate_waypoint self waypoint timeout vd s)))
   <= clicks (calls s) + 1)%nat
  /\
  loads (calls (final (navigate_waypoint self waypoint timeout vd s))) =
  loads (calls s).
Proof.
  unfold navigate_waypoint, current_location, location, try_except, call,
    bind, ret, raise, gets.
  destruct (wait_for_element _ _ _) as [el w0|e0 w0]; [|split; count].
  cbn [driver heap calls].
  destruct (jitter w0) as [[] w1|e1 w1]; [|split; count].
  cbn [driver heap calls].
  destruct (click_when_enabled el w1) as [[] w2|e2 w2]; [|split; count].
  cbn [driver heap calls].
  destruct (wait_staleness el timeout w2) as [[] w3|e3 w3].
  - cbn [driver]. destruct (String.eqb _ _); [split; count|].
    destruct (list_truthy vd && _); split; count.
  - destruct (is_TimeoutException e3); [|split; count].
    cbn [driver]. destruct (String.eqb _ _); [split; count|].
    destruct (list_truthy vd && _); split; count.
Qed.

Lemma attempt_one_click self timeout waypoint (s : State W) :
  (clicks (calls (final (attempt self timeout waypoint s)))
   <= clicks (calls s) + 1)%nat
  /\
  loads (calls (final (attempt self timeout waypoint s))) = loads (calls s).
Proof.
  unfold attempt, bind.
  pose proof (later_dests_state self waypoint s) as Hs.
  destruct (later_dests self waypoint s) as [vd s0|e s0];
    cbn [final] in Hs; subst s0; [|split; count].
  unfold try_except, current_location, gets, ret, deref.
  destruct (String.eqb _ _); [split; count|].
  pose proof (navigate_waypoint_one_click self waypoint timeout vd s)
    as [Hc Hl].
  destruct (navigate_waypoint self waypoint timeout vd s) as [[] s1|e s1];
    cbn [final] in *; [now split|].
  destruct (is_NavigationException e); [|now split].
  destruct (handle_redirect_no_click
              (ignore_oos (args (heap s1 self))) (Some vd) (Some timeout)
              (Some self) s1) as [Hc' Hl'].
  unfold gets. cbv beta iota. rewrite Hc', Hl'. now split.
Qed.

Lemma for_each_clicks self timeout wps (s : State W) :
  (clicks (calls (final (for_each wps (navigate_body self timeout) s)))
   <= clicks (calls s) + List.length wps)%nat
  /\
  loads (calls (final (for_each wps (navigate_body self timeout) s))) =
  loads (calls s).
Proof.
  revert s. induction wps as [|w wps IH]; intros s.
  - split; count.
  - cbn [for_each]. unfold bind. rewrite navigate_body_unfold.
    destruct (attempt_one_click self timeout w s) as [Hc Hl].
    destruct (attempt self timeout w s) as [[] s1|e s1]; cbn [final] in *.
    + destruct (IH (bump self s1)) as [Hc' Hl'].
      change (calls (bump self s1)) with (calls s1) in *.
      cbn [List.length]. split; [lia | congruence].
    + cbn [List.length]. split; [lia | exact Hl].
Qed.

Lemma navigate_entry_shape self (s : State W) :
  (location s = route_start (heap s self) ->
   navigate_entry self s =
   Ok tt (store self (set_reached (heap s self) 0) s))
  /\
  (location s <> route_start (heap s self) ->
   navigate_entry self s =
   match driver_get (route_start (heap s self)) (driver s) with
   | Returns _ w =>
       Ok tt {| driver := w;
                heap := heap (store self (set_reached (heap s self) 0) s);
                calls := calls s ++ [call_get (route_start (heap s self))] |}
   | Throws e w =>
       Raise e {| driver := w;
                  heap := heap (store self (set_reached (heap s self) 0) s);
                  calls := calls s ++ [call_get (route_start (heap s self))] |}
   end).
Proof.
  unfold navigate_entry, assign_reached, current_location, deref, call,
    bind, gets, ret, location.
  cbn [store driver heap calls set_reached]. rewrite Nat.eqb_refl.
  change (route_start (set_reached (heap s self) 0))
    with (route_start (heap s self)).
  split; intros H.
  - rewrite H. now rewrite String.eqb_refl.
  - apply String.eqb_neq in H. rewrite H. cbn [negb store driver calls].
    now destruct (driver_get _ _) as [[] w|e w].
Qed.

Lemma completed_bound self timeout wps (s : State W) :
  (completed self timeout wps s <= List.length wps)%nat.
Proof.
  revert s. induction wps as [|w wps IH]; intros s; cbn; [lia|].
  destruct (attempt self timeout w s) as [[] s1|e s1]; [|lia].
  specialize (IH (bump self s1)). lia.
Qed.

(** What the loop leaves of the heap: every route but [self] as it was,
    and [self] as it was but for its counter. *)
Lemma for_each_frame self timeout wps (s : State W) a :
  set_reached (heap (final (for_each wps (navigate_body self timeout) s)) a)
    0 = set_reached (heap s a) 0
  /\
  (a <> self ->
   heap (final (for_each wps (navigate_body self timeout) s)) a = heap s a).
Proof.
  revert s. induction wps as [|w wps IH]; intros s.
  - split; reflexivity.
  - cbn [for_each]. unfold bind. rewrite navigate_body_unfold.
    pose proof (attempt_heap self timeout w s) as Hh.
    destruct (attempt self timeout w s) as [[] s1|e s1]; cbn [final] in *.
    + destruct (IH (bump self s1)) as [I1 I2]. rewrite I1. split.
      * unfold bump, store. cbn [heap].
        destruct (Nat.eqb_spec a self) as [->|Hne];
          [cbn; now rewrite Hh | now rewrite Hh].
      * intros Hne. rewrite (I2 Hne). unfold bump, store. cbn [heap].
        apply Nat.eqb_neq in Hne. now rewrite Hne, Hh.
    + rewrite Hh. split; reflexivity.
Qed.

Lemma navigate_entry_frame self (s : State W) a :
  set_reached (heap (final (navigate_entry self s)) a) 0 =
  set_reached (heap s a) 0
  /\
  (a <> self -> heap (final (navigate_entry self s)) a = heap s a).
Proof.
  assert (E : heap (final (navigate_entry self s)) a =
              if Nat.eqb a self then set_reached (heap s self) 0
              else heap s a).
  { destruct (String.eqb_spec (location s) (route_start (heap s self)))
      as [H|H].
    - now rewrite (proj1 (navigate_entry_shape self s) H).
    - rewrite (proj2 (navigate_entry_shape self s) H).
      now destruct (driver_get _ _). }
  rewrite E. clear E. destruct (Nat.eqb_spec a self) as [Heq|Hne].
  - rewrite Heq. split; [reflexivity | intros H; contradiction].
  - split; reflexivity.
Qed.

(** X8. At the last waypoint of a route of distinct waypoints nothing is
    left to wait for: when the hop fails and the browser is neither on a
    known page nor at the start of the route, the iteration ends in
    [UnhandledRedirect] at once, without a wait. *)
Theorem last_waypoint_redirect_is_fatal self timeout pre waypoint m
    (s s2 : State W) :
  waypoints (heap s self) = (pre ++ [waypoint])%list ->
  (forall x, In x pre -> wp_id x <> wp_id waypoint) ->
  location s <> BASE_URL ++ dest waypoint ->
  navigate_waypoint self waypoint timeout [] s =
    Raise (NavigationException m) s2 ->
  substr_in AUTH_URL (location s2) = false ->
  substr_in OOS_URL (location s2) = false ->
  substr_in THROTTLE_URL (location s2) = false ->
  location s2 <> route_start (heap s self) ->
  navigate_body self timeout waypoint s = Raise (UnhandledRedirect None) s2.
Proof.
  intros Hw Hpre Hloc Hn H1 H2 H3 Hstart.
  pose proof (later_dests_distinct self s pre waypoint [] Hw Hpre) as Hvd.
  pose proof (navigate_waypoint_heap self waypoint timeout [] s) as Hh.
  rewrite Hn in Hh. cbn [final] in Hh.
  rewrite navigate_body_unfold. unfold attempt, bind at 1. rewrite Hvd.
  cbn [map]. unfold try_except, bind, current_location, deref, gets, ret.
  apply String.eqb_neq in Hloc. rewrite Hloc, Hn.
  cbn [is_NavigationException].
  rewrite handle_redirect_generic; try assumption.
  - reflexivity.
  - rewrite Hh. apply String.eqb_neq in Hstart. rewrite Hstart.
    apply andb_false_r.
Qed.

(** X9. On entry [navigate] loads the start of the route exactly when the
    browser is elsewhere: at the start it calls nothing, elsewhere its
    single call is [driver.get(route_start)]. *)
Theorem navigate_entry_loads_start_when_elsewhere self (s : State W) :
  (location s = route_start (heap s self) ->
   calls (final (navigate_entry self s)) = calls s /\
   driver (final (navigate_entry self s)) = driver s /\
   returned (navigate_entry self s) = true)
  /\
  (location s <> route_start (heap s self) ->
   calls (final (navigate_entry self s)) =
   (calls s ++ [call_get (route_start (heap s self))])%list).
Proof.
  destruct (navigate_entry_shape self s) as [Ha Hb]. split; intros H.
  - rewrite (Ha H). repeat split.
  - rewrite (Hb H). now destruct (driver_get _ _).
Qed.

(** X10. If loading the start of the route fails, [navigate] ends there:
    the exception comes out, no waypoint is attempted and the counter is
    zero. *)
Theorem navigate_aborts_when_start_fails self timeout e w (s : State W) :
  location s <> route_start (heap s self) ->
  driver_get (route_start (heap s self)) (driver s) = Throws e w ->
  navigate self timeout s =
  Raise e {| driver := w;
             heap := heap (store self (set_reached (heap s self) 0) s);
             calls := calls s ++ [call_get (route_start (heap s self))] |}
  /\
  waypoints_reached (heap (final (navigate self timeout s)) self) = 0.
Proof.
  intros Hloc Hget.
  assert (E : navigate self timeout s =
              Raise e {| driver := w;
                         heap := heap (store self
                                         (set_reached (heap s self) 0) s);
                         calls := calls s ++
                                  [call_get (route_start (heap s self))] |}).
  { rewrite navigate_unfold.
    rewrite (proj2 (navigate_entry_shape self s) Hloc). now rewrite Hget. }
  split; [exact E|]. rewrite E. cbn. now rewrite Nat.eqb_refl.
Qed.

(** X11. A route without waypoints is traversed by its entry alone:
    [navigate] resets the counter, loads the start if the browser is
    elsewhere, and is done. *)
Theorem navigate_of_empty_route self timeout (s : State W) :
  waypoints (heap s self) = [] ->
  navigate self timeout s = navigate_entry self s.
Proof.
  intros He. rewrite navigate_unfold, He.
  now destruct (navigate_entry self s) as [[] s0|e s0].
Qed.

(** X12. When the element of a waypoint cannot be found, and the exception
    is not a [NavigationException] (as Selenium's timeout is not), nothing
    is clicked and no recovery is tried: the iteration raises that
    exception after the one call, the counter as it was. *)
Theorem element_not_found_ends_navigation self timeout waypoint e w
    (s : State W) :
  In waypoint (waypoints (heap s self)) ->
  location s <> BASE_URL ++ dest waypoint ->
  wait_for_element (locator waypoint) timeout (driver s) = Throws e w ->
  is_NavigationException e = false ->
  navigate_body self timeout waypoint s =
  Raise e {| driver := w; heap := heap s;
             calls := calls s ++
                      [call_wait_for_element (locator waypoint) timeout] |}.
Proof.
  intros Hin Hloc Hel He.
  destruct (later_dests_member self s waypoint Hin) as [vd Hvd].
  rewrite navigate_body_unfold. unfold attempt, bind at 1. rewrite Hvd.
  unfold try_except, bind, current_location, gets, ret.
  apply String.eqb_neq in Hloc. rewrite Hloc.
  unfold navigate_waypoint, bind, call. rewrite Hel. now rewrite He.
Qed.

(** X13. In a route of pairwise distinct waypoint objects, the
    destinations handed to the hop at position [i] are exactly those of
    the waypoints after position [i], in order. *)
Theorem valid_dest_of_distinct_waypoints self (s : State W) i waypoint :
  NoDup (map wp_id (waypoints (heap s self))) ->
  nth_error (waypoints (heap s self)) i = Some waypoint ->
  later_dests self waypoint s =
  Ok (map dest (skipn (S i) (waypoints (heap s self)))) s.
Proof.
  intros Hnd Hnth.
  destruct (nth_error_split _ _ Hnth) as (pre & post & Hw & Hlen).
  rewrite Hw in Hnd. rewrite map_app in Hnd. cbn [map] in Hnd.
  apply NoDup_remove_2 in Hnd.
  assert (Hpre : forall x, In x pre -> wp_id x <> wp_id waypoint).
  { intros x Hx E. apply Hnd. apply in_or_app. left.
    rewrite <- E. now apply in_map. }
  rewrite (later_dests_distinct self s pre waypoint post Hw Hpre).
  rewrite Hw, <- Hlen. replace (S (List.length pre)) with
    (List.length pre + 1)%nat by lia.
  now rewrite skipn_past.
Qed.

(** X14. An empty destination among the valid ones accepts every landing:
    the empty string occurs in every location, so once the click-and-wait
    sequence has run, [navigate_waypoint] returns wherever the browser
    is. *)
Theorem empty_destination_accepts_any_landing self waypoint timeout vd
    (s : State W) e w' :
  In EmptyString vd ->
  click_and_wait waypoint timeout e (driver s) w' ->
  navigate_waypoint self waypoint timeout vd s =
  Ok tt (landed s waypoint timeout e w').
Proof.
  intros Hin Hseq. rewrite (navigate_waypoint_lands _ _ _ _ _ _ _ Hseq).
  assert (Hl : lands_on BASE_URL (remove_qs (current_url w')) waypoint vd).
  { right. exists EmptyString. split; [exact Hin|].
    now exists EmptyString, (remove_qs (current_url w')). }
  apply landing_test in Hl. now rewrite Hl.
Qed.

(** X15. [navigate] writes nothing but the counter of its own route: the
    start, the arguments and the waypoints of that route, and every other
    route on the heap, are the same after the call, however it ends. *)
Theorem navigate_writes_only_its_counter self timeout (s : State W) :
  route_start (heap (final (navigate self timeout s)) self) =
    route_start (heap s self)
  /\
  args (heap (final (navigate self timeout s)) self) = args (heap s self)
  /\
  waypoints (heap (final (navigate self timeout s)) self) =
    waypoints (heap s self)
  /\
  (forall a, a <> self ->
             heap (final (navigate self timeout s)) a = heap s a).
Proof.
  assert (F : forall a,
             set_reached (heap (final (navigate self timeout s)) a) 0 =
             set_reached (heap s a) 0 /\
             (a <> self ->
              heap (final (navigate self timeout s)) a = heap s a)).
  { intros a. rewrite navigate_unfold.
    destruct (navigate_entry_frame self s a) as [E1 E2].
    destruct (navigate_entry self s) as [[] s0|e s0]; cbn [final] in *.
    - destruct (for_each_frame self timeout (waypoints (heap s self)) s0 a)
        as [F1 F2].
      split; [now rewrite F1 | intros Hne; now rewrite F2, E2].
    - now split. }
  destruct (F self) as [E _].
  repeat split.
  - exact (f_equal route_start E).
  - exact (f_equal args E).
  - exact (f_equal waypoints E).
  - intros a Hne. now apply F.
Qed.

(** X16. However [navigate] ends, the counter it leaves lies between zero
    and the number of waypoints of the route. *)
Theorem navigate_counter_in_range self timeout (s : State W) :
  0 <= waypoints_reached (heap (final (navigate self timeout s)) self)
    <= Z.of_nat (List.length (waypoints (heap s self))).
Proof.
  rewrite navigate_unfold.
  pose proof (navigate_entry_heap self s) as Hh.
  destruct (navigate_entry self s) as [[] s0|e s0]; cbn [final] in *.
  - destruct (for_each_reached self timeout (waypoints (heap s self)) s0)
      as [H1 _].
    rewrite H1, Hh. cbn [waypoints_reached set_reached].
    pose proof (completed_bound self timeout (waypoints (heap s self)) s0).
    lia.
  - rewrite Hh. cbn. lia.
Qed.

(** X17. [navigate] clicks at most once for each waypoint of the route,
    and loads a page at most once, however it ends and whatever the site
    does: recovery never clicks and never loads. *)
Theorem navigate_clicks_at_most_once_per_waypoint self timeout
    (s : State W) :
  (clicks (calls (final (navigate self timeout s)))
   <= clicks (calls s) + List.length (waypoints (heap s self)))%nat
  /\
  (loads (calls (final (navigate self timeout s))) <= loads (calls s) + 1)%nat.
Proof.
  rewrite navigate_unfold.
  assert (He : clicks (calls (final (navigate_entry self s))) =
               clicks (calls s) /\
               (loads (calls (final (navigate_entry self s)))
                <= loads (calls s) + 1)%nat).
  { destruct (String.eqb_spec (location s) (route_start (heap s self)))
      as [E|E].
    - rewrite (proj1 (navigate_entry_shape self s) E).
      cbn [final calls store]. split; [reflexivity | lia].
    - rewrite (proj2 (navigate_entry_shape self s) E).
      destruct (driver_get _ _); split; count. }
  destruct He as [Hc Hl].
  destruct (navigate_entry self s) as [[] s0|e s0]; cbn [final] in *.
  - destruct (for_each_clicks self timeout (waypoints (heap s self)) s0)
      as [Hc' Hl'].
    split; lia.
  - split; lia.
Qed.

End Traversal.

(** ** Slot names, preferences and the message *)

Import Run.

Lemma prefix_nil (s : string) : String.prefix EmptyString s = true.
Proof. now destruct s. Qed.

Lemma replace_space_cons (c : ascii) (rest : string) :
  replace " " "" (String c rest) =
  if Ascii.eqb c " " then replace " " "" rest
  else String c (replace " " "" rest).
Proof.
  unfold replace. cbn [replace_from String.prefix String.length Nat.sub].
  destruct (Ascii.eqb_spec c " ") as [->|Hne].
  - cbn. now rewrite prefix_nil.
  - destruct (ascii_dec " " c) as [E|E]; [congruence | reflexivity].
Qed.

Lemma lower_ascii_idem (c : ascii) :
  lower_ascii (lower_ascii c) = lower_ascii c.
Proof. destruct c as [[] [] [] [] [] [] [] []]; reflexivity. Qed.

Lemma lower_ascii_space (c : ascii) :
  lower_ascii c = " "%char -> c = " "%char.
Proof.
  destruct c as [[] [] [] [] [] [] [] []]; intros H; vm_compute in H;
    try discriminate; reflexivity.
Qed.

Lemma clean_str_cons (c : ascii) (s : string) :
  clean_slotname (a_str (String c s)) =
  if Ascii.eqb (lower_ascii c) " " then clean_slotname (a_str s)
  else String (lower_ascii c) (clean_slotname (a_str s)).
Proof. unfold clean_slotname. cbn [lower]. apply replace_space_cons. Qed.

Lemma clean_slot_name (x : SlotOrStr) :
  exists name, clean_slotname x = clean_slotname (a_str name).
Proof. destruct x as [slot|name]; eauto. exists (full_name slot). reflexivity. Qed.

Lemma clean_str_chars (s : string) (c : ascii) :
  In c (list_ascii_of_string (clean_slotname (a_str s))) ->
  c <> " "%char /\ lower_ascii c = c.
Proof.
  induction s as [|d s IH]; [intros []|].
  rewrite clean_str_cons.
  destruct (Ascii.eqb_spec (lower_ascii d) " ") as [E|E]; [exact IH|].
  cbn [list_ascii_of_string In]. intros [<-|H]; [|now apply IH].
  split; [exact E | apply lower_ascii_idem].
Qed.

Lemma clean_str_idem (s : string) :
  clean_slotname (a_str (clean_slotname (a_str s))) =
  clean_slotname (a_str s).
Proof.
  induction s as [|d s IH]; [reflexivity|].
  rewrite clean_str_cons.
  destruct (Ascii.eqb_spec (lower_ascii d) " ") as [E|E]; [exact IH|].
  rewrite clean_str_cons, lower_ascii_idem.
  destruct (Ascii.eqb_spec (lower_ascii d) " ") as [E'|_]; [contradiction|].
  now rewrite IH.
Qed.


Lemma lower_fixed (s : string) :
  (forall c, In c (list_ascii_of_string s) -> lower_ascii c = c) ->
  lower s = s.
Proof.
  induction s as [|d s IH]; intros H; [reflexivity|].
  cbn [lower]. rewrite (H d) by now left.
  rewrite IH; [reflexivity | intros c Hc; apply H; now right].
Qed.

Lemma lower_idem (s : string) : lower (lower s) = lower s.
Proof.
  induction s as [|d s IH]; [reflexivity|].
  cbn [lower]. now rewrite lower_ascii_idem, IH.
Qed.

Lemma lower_clean (x : SlotOrStr) :
  lower (clean_slotname x) = clean_slotname x.
Proof.
  destruct (clean_slot_name x) as [name ->].
  apply lower_fixed. intros c Hc. now apply (clean_str_chars name).
Qed.

Lemma chars_app (a b : string) :
  list_ascii_of_string (a ++ b) =
  (list_ascii_of_string a ++ list_ascii_of_string b)%list.
Proof.
  induction a as [|d a IH]; [reflexivity|]. cbn. now rewrite IH.
Qed.

Lemma prefix_chars (p s : string) (c : ascii) :
  String.prefix p s = true ->
  In c (list_ascii_of_string p) -> In c (list_ascii_of_string s).
Proof.
  intros Hp Hc. apply prefix_iff in Hp as [post ->].
  rewrite chars_app. apply in_or_app. now left.
Qed.

Lemma lower_chars (s : string) (c : ascii) :
  In c (list_ascii_of_string s) ->
  In (lower_ascii c) (list_ascii_of_string (lower s)).
Proof.
  induction s as [|d s IH]; [intros []|].
  cbn [lower list_ascii_of_string In]. intros [->|H]; [now left|].
  right. now apply IH.
Qed.

Lemma spaced_preference_selects_nothing (cmp : string)
    (slots : list SlotElement) :
  In " "%char (list_ascii_of_string cmp) ->
  String.prefix "any" cmp = false ->
  preferred_by cmp slots = [].
Proof.
  intros Hsp Hany. unfold preferred_by. rewrite Hany.
  induction slots as [|slot slots IH]; [reflexivity|].
  cbn [filter].
  destruct (String.prefix cmp (clean_slotname (a_slot slot))) eqn:E;
    [|exact IH].
  exfalso.
  pose proof (prefix_chars _ _ _ E Hsp) as Hin.
  change (clean_slotname (a_slot slot))
    with (clean_slotname (a_str (full_name slot))) in Hin.
  now destruct (clean_str_chars _ _ Hin) as [Hne _].
Qed.

(** X18. [clean_slotname] normalizes: its result holds no space and no
    upper-case ASCII letter, and cleaning a cleaned name changes
    nothing. *)
Theorem clean_slotname_normalizes (x : SlotOrStr) :
  clean_slotname (a_str (clean_slotname x)) = clean_slotname x
  /\
  (forall c, In c (list_ascii_of_string (clean_slotname x)) ->
             c <> " "%char /\ lower_ascii c = c).
Proof.
  destruct (clean_slot_name x) as [name ->]. split.
  - apply clean_str_idem.
  - intros c. apply clean_str_chars.
Qed.

Lemma prefs_of_windows_none day windows acc :
  prefs_of_windows day windows acc = None <->
  lower day = "any" /\
  exists window, In window windows /\ lower window = "any".
Proof.
  revert acc. induction windows as [|w windows IH]; intros acc;
    cbn [prefs_of_windows].
  - split; [discriminate | intros [_ [window [[] _]]]].
  - destruct (String.eqb_spec (lower w) "any") as [Ew|Ew].
    + destruct (String.eqb_spec (lower day) "any") as [Ed|Ed].
      * split; [intros _|reflexivity].
        split; [exact Ed | exists w; split; [now left | exact Ew]].
      * rewrite IH. split; intros [H _]; contradiction.
    + rewrite IH. split; intros [Hd [window [Hin Hw]]].
      * split; [exact Hd | exists window; split; [now right | exact Hw]].
      * split; [exact Hd|]. exists window. split; [|exact Hw].
        destruct Hin as [->|Hin]; [contradiction | exact Hin].
Qed.

Lemma prefs_of_windows_some day windows acc prefs :
  prefs_of_windows day windows acc = Some prefs ->
  exists added,
    prefs = (acc ++ added)%list /\
    List.length added = List.length windows /\
    Forall (fun p => lower p = p) added.
Proof.
  revert acc. induction windows as [|w windows IH]; intros acc;
    cbn [prefs_of_windows].
  - intros [= <-]. exists []. rewrite app_nil_r. repeat split. constructor.
  - destruct (String.eqb (lower w) "any").
    + destruct (String.eqb (lower day) "any"); [discriminate|].
      intros H. destruct (IH _ H) as (added & -> & Hl & Hf).
      exists (lower day :: added). rewrite <- app_assoc. repeat split.
      * cbn. now rewrite Hl.
      * constructor; [apply lower_idem | exact Hf].
    + intros H. destruct (IH _ H) as (added & -> & Hl & Hf).
      exists (clean_slotname (a_str (join "::" [day; w])) :: added).
      rewrite <- app_assoc. repeat split.
      * cbn. now rewrite Hl.
      * constructor; [apply lower_clean | exact Hf].
Qed.

Lemma prefs_of_days_none conf acc :
  prefs_of_days conf acc = None <->
  exists day windows window,
    In (day, windows) conf /\ In window windows /\
    lower day = "any" /\ lower window = "any".
Proof.
  revert acc. induction conf as [|[d ws] conf IH]; intros acc;
    cbn [prefs_of_days].
  - split; [discriminate | intros (? & ? & ? & [] & _)].
  - destruct (prefs_of_windows d ws acc) as [acc'|] eqn:E.
    + rewrite IH. split.
      * intros (day & windows & window & Hin & H).
        exists day, windows, window. split; [now right | exact H].
      * intros (day & windows & window & [Heq|Hin] & Hw & Hd & Ha).
        -- inversion Heq; subst.
           assert (N : prefs_of_windows day windows acc = None)
             by (apply prefs_of_windows_none; eauto).
           congruence.
        -- exists day, windows, window. auto.
    + apply prefs_of_windows_none in E as [Hd [window [Hin Hw]]].
      split; [intros _ | reflexivity].
      exists d, ws, window. split; [now left | auto].
Qed.

Lemma prefs_of_days_some conf acc prefs :
  prefs_of_days conf acc = Some prefs ->
  exists added,
    prefs = (acc ++ added)%list /\
    List.length added = List.length (concat (map snd conf)) /\
    Forall (fun p => lower p = p) added.
Proof.
  revert acc. induction conf as [|[d ws] conf IH]; intros acc;
    cbn [prefs_of_days].
  - intros [= <-]. exists []. rewrite app_nil_r. repeat split. constructor.
  - destruct (prefs_of_windows d ws acc) as [acc'|] eqn:E; [|discriminate].
    intros H. destruct (prefs_of_windows_some _ _ _ _ E)
      as (a1 & -> & L1 & F1).
    destruct (IH _ H) as (a2 & -> & L2 & F2).
    exists (a1 ++ a2)%list. rewrite <- app_assoc. repeat split.
    + cbn [map snd concat]. rewrite !length_app. now rewrite L1, L2.
    + apply Forall_app. now split.
Qed.

(** X19. [get_prefs_from_conf] answers [None] (any slot will do) exactly
    when some day spelled [any], in whatever case, lists a window spelled
    [any]; the entries before it do not matter. *)
Theorem get_prefs_is_none_iff_any_any (conf : list (string * list string)) :
  get_prefs_from_conf conf = None <->
  exists day windows window,
    In (day, windows) conf /\ In window windows /\
    lower day = "any" /\ lower window = "any".
Proof. apply prefs_of_days_none. Qed.

(** X20. Otherwise [get_prefs_from_conf] gives one preference for each
    window of the table, and every preference is in lower case. *)
Theorem get_prefs_one_per_window (conf : list (string * list string))
    (prefs : list string) :
  get_prefs_from_conf conf = Some prefs ->
  List.length prefs = List.length (concat (map snd conf)) /\
  Forall (fun p => lower p = p) prefs.
Proof.
  intros H. destruct (prefs_of_days_some _ _ _ H) as (added & -> & L & F).
  now split.
Qed.

Lemma flat_map_nothing {A B} (f : A -> list B) (l : list A) :
  (forall x, In x l -> f x = []) -> flat_map f l = [].
Proof.
  induction l as [|x l IH]; intros H; [reflexivity|].
  cbn [flat_map]. rewrite (H x) by now left.
  apply IH. intros y Hy. apply H. now right.
Qed.

(** X21. With slots on the page and preferences given, [get_slots] returns
    a slot exactly when it is on the page and some preference matches its
    cleaned name: as a prefix of it or, for a preference that starts with
    [any], by the rest of the preference occurring in it. *)
Theorem get_slots_returns_the_matching_slots (slots : list SlotElement)
    (prefs : list string) (slot : SlotElement) :
  slots <> [] ->
  prefs <> [] ->
  In slot (get_slots_result slots (Some prefs)) <->
  In slot slots /\
  exists cmp,
    In cmp prefs /\
    ((String.prefix "any" cmp = true /\
      substr_in (replace "any" "" cmp) (clean_slotname (a_slot slot)) = true)
     \/
     (String.prefix "any" cmp = false /\
      String.prefix cmp (clean_slotname (a_slot slot)) = true)).
Proof.
  intros Hs Hp. unfold get_slots_result.
  destruct slots as [|s0 slots]; [contradiction|].
  destruct prefs as [|p0 prefs]; [contradiction|].
  cbn [list_truthy andb]. rewrite in_flat_map. split.
  - intros (cmp & Hc & Hin). unfold preferred_by in Hin.
    destruct (String.prefix "any" cmp) eqn:E;
      apply filter_In in Hin as [Hin Hm]; split; eauto.
  - intros (Hin & cmp & Hc & H). exists cmp. split; [exact Hc|].
    unfold preferred_by.
    destruct H as [[-> Hm] | [-> Hm]]; apply filter_In; now split.
Qed.

(** X22. [get_slots] does not remove duplicates: a slot matched by two
    preferences is returned twice. *)
Theorem get_slots_repeats_slot_matched_twice (slots : list SlotElement)
    (p1 p2 p3 : list string) (cmp1 cmp2 : string) (slot : SlotElement) :
  In slot (preferred_by cmp1 slots) ->
  In slot (preferred_by cmp2 slots) ->
  exists l1 l2 l3,
    get_slots_result slots (Some (p1 ++ cmp1 :: p2 ++ cmp2 :: p3)%list) =
    (l1 ++ slot :: l2 ++ slot :: l3)%list.
Proof.
  intros H1 H2.
  assert (Hs : list_truthy slots = true).
  { destruct slots; [|reflexivity]. unfold preferred_by in H1.
    destruct (String.prefix "any" cmp1); destruct H1. }
  assert (Hp : list_truthy (p1 ++ cmp1 :: p2 ++ cmp2 :: p3)%list = true)
    by now destruct p1.
  unfold get_slots_result. rewrite Hs, Hp. cbn [andb].
  rewrite flat_map_app. cbn [flat_map]. rewrite flat_map_app.
  cbn [flat_map].
  destruct (in_split _ _ H1) as (a1 & b1 & ->).
  destruct (in_split _ _ H2) as (a2 & b2 & ->).
  exists (flat_map (fun cmp => preferred_by cmp slots) p1 ++ a1)%list,
         (b1 ++ flat_map (fun cmp => preferred_by cmp slots) p2 ++ a2)%list,
         (b2 ++ flat_map (fun cmp => preferred_by cmp slots) p3)%list.
  repeat (rewrite <- app_assoc; cbn [app]). reflexivity.
Qed.

(** X23. The first slot returned, the one the checkout takes, is the first
    slot on the page matched by the earliest preference that matches
    anything. *)
Theorem get_slots_first_is_earliest_preference (slots : list SlotElement)
    (skipped rest : list string) (cmp : string) (first : SlotElement)
    (more : list SlotElement) :
  (forall c, In c skipped -> preferred_by c slots = []) ->
  preferred_by cmp slots = first :: more ->
  exists tail,
    get_slots_result slots (Some (skipped ++ cmp :: rest)%list) =
    first :: tail.
Proof.
  intros Hsk Hc.
  assert (Hs : list_truthy slots = true).
  { destruct slots; [|reflexivity]. unfold preferred_by in Hc.
    destruct (String.prefix "any" cmp); discriminate. }
  assert (Hp : list_truthy (skipped ++ cmp :: rest)%list = true)
    by now destruct skipped.
  unfold get_slots_result. rewrite Hs, Hp. cbn [andb].
  rewrite flat_map_app, (flat_map_nothing _ _ Hsk). cbn [app flat_map].
  rewrite Hc. cbn [app]. eauto.
Qed.

(** X24. A day listed with the window [any] becomes the preference
    [day.lower()], spaces kept, while slot names are compared with their
    spaces removed: if the name of the day holds a space (and does not
    start with [any]), that preference selects no slot at all. *)
Theorem day_with_space_selects_nothing (day window : string)
    (slots : list SlotElement) :
  lower window = "any" ->
  In " "%char (list_ascii_of_string day) ->
  String.prefix "any" (lower day) = false ->
  slots <> [] ->
  get_prefs_from_conf [(day, [window])] = Some [lower day] /\
  get_slots_result slots (get_prefs_from_conf [(day, [window])]) = [].
Proof.
  intros Hw Hsp Hany Hs.
  assert (Hd : String.eqb (lower day) "any" = false).
  { apply String.eqb_neq. intros E. rewrite E in Hany. discriminate. }
  assert (E : get_prefs_from_conf [(day, [window])] = Some [lower day]).
  { unfold get_prefs_from_conf. cbn [prefs_of_days prefs_of_windows].
    rewrite Hw, Hd. reflexivity. }
  split; [exact E|]. rewrite E. unfold get_slots_result.
  destruct slots as [|s0 slots]; [contradiction|].
  cbn [list_truthy andb flat_map]. rewrite app_nil_r.
  apply spaced_preference_selects_nothing; [|exact Hany].
  now apply (lower_chars day " "%char).
Qed.



Lemma message_text_grows (slots : list SlotElement) (text : list string) :
  exists added,
    message_text slots text = (text ++ added)%list /\
    (forall s, In s slots -> In (slot_text s) added) /\
    (forall s, In s slots -> In (date_text s) (text ++ added)).
Proof.
  revert text. induction slots as [|slot slots IH]; intros text.
  - exists []. rewrite app_nil_r. repeat split; intros s [].
  - cbn [message_text].
    destruct (existsb (String.eqb (date_text slot)) text) eqn:E.
    + destruct (IH (text ++ [slot_text slot])%list)
        as (added & -> & H1 & H2).
      exists (slot_text slot :: added). rewrite <- app_assoc.
      split; [reflexivity|]. split.
      * intros s [<-|Hs]; [now left | right; now apply H1].
      * intros s [<-|Hs].
        -- apply existsb_exists in E as (d & Hd & Ed).
           apply String.eqb_eq in Ed. subst d.
           apply in_or_app. now left.
        -- specialize (H2 s Hs). rewrite <- app_assoc in H2. exact H2.
    + destruct (IH ((text ++ [EmptyString; date_text slot]) ++
                    [slot_text slot])%list) as (added & -> & H1 & H2).
      exists (EmptyString :: date_text slot :: slot_text slot :: added).
      repeat (rewrite <- app_assoc; cbn [app]).
      split; [reflexivity|]. split.
      * intros s [<-|Hs]; [right; right; now left|].
        right. right. right. now apply H1.
      * intros s [<-|Hs].
        -- apply in_or_app. right. right. now left.
        -- specialize (H2 s Hs).
           repeat (rewrite <- app_assoc in H2; cbn [app] in H2). exact H2.
Qed.

(** X26. [generate_message] has nothing to say about no slots: [None]
    without [checkout], the [IndexError] of [slots[0]] with it.  For any
    slots it gives a message that opens with the service and the
    announcement and has a line for every slot and for the date of every
    slot; with [checkout] the message ends with the name of the first
    slot. *)
Theorem generate_message_lists_every_slot (slots : list SlotElement)
    (service : string) (checkout : bool) :
  match slots with
  | [] =>
      generate_message slots service checkout =
      if checkout then inl (OtherException "IndexError") else inr None
  | first :: _ =>
      exists text,
        generate_message slots service checkout =
        inr (Some (join newline
                     ((service ++ " delivery slots found!") :: text))) /\
        (forall s, In s slots ->
                   In (slot_text s) text /\ In (date_text s) text) /\
        (checkout = true ->
         exists before,
           text = (before ++
                   [String.append newline
                      "Will attempt to checkout using slot:";
                    full_name first])%list)
  end.
Proof.
  destruct slots as [|first slots]; [now destruct checkout|].
  destruct (message_text_grows (first :: slots) []) as (added & E & H1 & H2).
  cbn [app] in E, H2. unfold generate_message. rewrite E.
  assert (Hne : added <> []).
  { intros ->. destruct (H1 first); now left. }
  destruct checkout.
  - exists (added ++
            [String.append newline "Will attempt to checkout using slot:";
             full_name first])%list.
    assert (T : list_truthy
                  (added ++
                   [String.append newline
                      "Will attempt to checkout using slot:";
                    full_name first])%list = true)
      by (destruct added; reflexivity).
    rewrite T. split; [reflexivity|]. split.
    + intros s Hs. split; apply in_or_app; left; auto.
    + intros _. now exists added.
  - exists added.
    assert (T : list_truthy added = true)
      by (destruct added; [contradiction | reflexivity]).
    rewrite T. split; [reflexivity|]. split; [|discriminate].
    intros s Hs. split; auto.
Qed.

Lemma first_card_some rows pref k i :
  first_card rows pref k = Some i ->
  exists j row,
    i = (k + j)%nat /\ nth_error rows j = Some row /\
    card_number row = pref /\
    (forall j' row', (j' < j)%nat -> nth_error rows j' = Some row' ->
                     card_number row' <> pref).
Proof.
  revert k. induction rows as [|r rows IH]; intros k; cbn [first_card];
    [discriminate|].
  destruct (String.eqb_spec (card_number r) pref) as [E|E].
  - intros [= <-]. exists O, r. repeat split; [lia | exact E |].
    intros j' row' Hlt. lia.
  - intros H. destruct (IH _ H) as (j & row & -> & Hn & Hc & Hb).
    exists (S j), row. repeat split; [lia | exact Hn | exact Hc |].
    intros [|j'] row' Hlt Hn'.
    + cbn in Hn'. inversion Hn'; subst. exact E.
    + apply (Hb j'); [lia | exact Hn'].
Qed.

Lemma first_card_none rows pref k :
  first_card rows pref k = None <->
  forall row, In row rows -> card_number row <> pref.
Proof.
  revert k. induction rows as [|r rows IH]; intros k; cbn [first_card].
  - split; [intros _ row [] | reflexivity].
  - destruct (String.eqb_spec (card_number r) pref) as [E|E].
    + split; [discriminate|]. intros H. exfalso. apply (H r); [now left|].
      exact E.
    + rewrite IH. split.
      * intros H row [<-|Hin]; [exact E | now apply H].
      * intros H row Hin. apply H. now right.
Qed.

(** X27. [select_payment_method] selects at most one card row: the first
    whose number is the preferred card.  Without a preferred card, or with
    no row of that number, it selects none and the default payment method
    stays. *)
Theorem select_payment_method_takes_first_match (rows : list PaymentRow)
    (pref_card : option string) :
  match select_payment_method rows pref_card with
  | Some i =>
      exists card row,
        pref_card = Some card /\ card <> EmptyString /\
        nth_error rows i = Some row /\ card_number row = card /\
        (forall j row', (j < i)%nat -> nth_error rows j = Some row' ->
                        card_number row' <> card)
  | None =>
      pref_card = None \/ pref_card = Some EmptyString \/
      exists card,
        pref_card = Some card /\
        forall row, In row rows -> card_number row <> card
  end.
Proof.
  unfold select_payment_method.
  destruct pref_card as [card|]; [|now left].
  destruct (String.eqb_spec card EmptyString) as [->|Hne]; [right; now left|].
  destruct (first_card rows card O) as [i|] eqn:E.
  - destruct (first_card_some _ _ _ _ E) as (j & row & -> & Hn & Hc & Hb).
    exists card, row. cbn [Nat.add]. auto.
  - right. right. exists card. split; [reflexivity|].
    exact (proj1 (first_card_none rows card O) E).
Qed.

(** ** The engine on the scripted browser *)

Import Mock.

(** C1 fails as stated: after two waypoints, back at the start of the
    route, with no pattern matching and no valid destinations passed, the
    generic path would raise [UnhandledRedirect]; [handle_redirect] raises
    [RouteRedirect]. *)
Lemma start_loop_after_progress_restarts :
  0 < waypoints_reached (heap bounced 0%nat) /\
  location bounced = route_start (heap bounced 0%nat) /\
  substr_in AUTH_URL (location bounced) = false /\
  substr_in OOS_URL (location bounced) = false /\
  substr_in THROTTLE_URL (location bounced) = false /\
  wait_valid_dest None None bounced = Raise (UnhandledRedirect None) bounced /\
  handle_redirect false None None (Some 0%nat) bounced =
    Raise (RouteRedirect None) bounced /\
  ~ (exists m s', handle_redirect false None None (Some 0%nat) bounced =
                  Raise (UnhandledRedirect m) s').
Proof.
  repeat split; try reflexivity.
  intros (m & s' & H). vm_compute in H. discriminate.
Qed.

Lemma handle_redirect_start_after_progress_witness :
  handle_redirect false None None (Some 0%nat) bounced =
  Raise (RouteRedirect None) bounced.
Proof.
  apply (handle_redirect_start_after_progress false None None 0%nat bounced);
    reflexivity.
Defined.

Lemma handle_redirect_first_match_wins_witness :
  handle_redirect false None None (Some 0%nat) throttled =
  Raise (RouteRedirect (Some "Redirected after throttle"))
        {| driver := driver throttled; heap := heap throttled;
           calls := [call_handle_throttle] |}.
Proof.
  exact (proj1 (proj2 (handle_redirect_first_match_wins
                         false None None (Some 0%nat) throttled))
               eq_refl eq_refl eq_refl eq_refl).
Defined.

Lemma handle_redirect_matches_by_containment_witness :
  handle_redirect false None None (Some 0%nat) signing_in =
    call call_wait_for_auth wait_for_auth signing_in
  /\
  handle_redirect true None None (Some 0%nat) sold_out =
    call (call_handle_oos true) (handle_oos true) sold_out
  /\
  handle_redirect false None None (Some 0%nat) throttled =
    (call call_handle_throttle handle_throttle ;;
     raise (RouteRedirect (Some "Redirected after throttle"))) throttled.
Proof.
  split; [|split].
  - exact (proj1 (handle_redirect_matches_by_containment
                    false None None (Some 0%nat) signing_in
                    "https://shop.test" "/form")
                 eq_refl).
  - apply (proj1 (proj2 (handle_redirect_matches_by_containment
                           true None None (Some 0%nat) sold_out
                           "https://shop.test/gp" "/view"))).
    + reflexivity.
    + apply not_occurring. reflexivity.
  - apply (proj2 (proj2 (handle_redirect_matches_by_containment
                           false None None (Some 0%nat) throttled
                           "https://shop.test" EmptyString))).
    + reflexivity.
    + apply not_occurring. reflexivity.
    + apply not_occurring. reflexivity.
Defined.

(** C6 fails on the code: at a location that matches no pattern, with no
    valid destinations passed, [UnhandledRedirect] is raised without any
    argument, so without the location. *)
Lemma unhandled_redirect_without_location :
  current_url (driver stranded) = "https://shop.test/unknown?ref=1" /\
  handle_redirect false None None None stranded =
  Raise (UnhandledRedirect None) stranded.
Proof. split; reflexivity. Qed.

(** C4 fails as stated: the click lands on the start of the route followed
    by the destination, and [navigate_waypoint] raises. *)
Lemma navigate_waypoint_ignores_route_start :
  click_and_wait w1 20 7%nat (driver under_start)
    (at_page "https://shop.test/cart/b" []) /\
  lands_on (route_start (heap under_start 0%nat))
    (remove_qs (current_url (at_page "https://shop.test/cart/b" []))) w1 [] /\
  navigate_waypoint 0%nat w1 20 [] under_start =
    Raise (navigation_failed w1)
          (landed under_start w1 20 7%nat
             (at_page "https://shop.test/cart/b" [])) /\
  ~ (exists s', navigate_waypoint 0%nat w1 20 [] under_start = Ok tt s').
Proof.
  split; [|split; [|split]].
  - eexists _, _, _. repeat split; try reflexivity. left. reflexivity.
  - left. reflexivity.
  - reflexivity.
  - intros [s' H]. vm_compute in H. discriminate.
Qed.

Lemma navigate_waypoint_succeeds_iff_witness :
  navigate_waypoint 0%nat w1 20 [] smooth =
  Ok tt (landed smooth w1 20 7%nat
           (at_page "https://shop.test/b" (hop "https://shop.test/c" []))).
Proof.
  refine (proj1 (proj2 (navigate_waypoint_succeeds_iff 0%nat w1 20 []
                          smooth 7%nat _ _)) _).
  - eexists _, _, _. repeat split; try reflexivity. left. reflexivity.
  - left. reflexivity.
Defined.

Lemma staleness_timeout_is_tolerated_witness :
  navigate_waypoint 0%nat w1 20 [] in_place =
  Ok tt (landed in_place w1 20 7%nat (at_page "https://shop.test/b" [])).
Proof.
  exact (proj1 (staleness_timeout_is_tolerated 0%nat w1 20 [] in_place
                  7%nat _ _ _ _ eq_refl eq_refl eq_refl eq_refl)).
Defined.

(** C7 fails as stated: the second waypoint is reached with the browser at
    the start of the route followed by its destination, and [navigate]
    clicks again. *)
Lemma navigate_clicks_under_route_start :
  navigate_body 0%nat 20 w1 (final (navigate_entry 0%nat jumped)) =
    Ok tt after_jump /\
  In w2 (waypoints (heap after_jump 0%nat)) /\
  location after_jump = route_start (heap after_jump 0%nat) ++ dest w2 /\
  calls (final (navigate_body 0%nat 20 w2 after_jump)) =
    (calls after_jump ++
     [call_wait_for_element ("id", "button") 20; call_jitter;
      call_click 7%nat; call_wait_staleness 7%nat 20])%list /\
  List.length (filter is_click (calls (final (navigate 0%nat 20 jumped))))
    = 2%nat.
Proof.
  repeat split; try reflexivity.
  right. left. reflexivity.
Qed.

Lemma navigate_skips_hop_at_dest_witness :
  navigate_body 0%nat 20 w1 resumed = Ok tt (bump 0%nat resumed) /\
  calls (bump 0%nat resumed) = calls resumed.
Proof.
  destruct (navigate_skips_hop_at_dest 0%nat 20 w1 [w2] resumed)
    as (H1 & H2 & _).
  - left. reflexivity.
  - reflexivity.
  - split; [exact H1 | exact H2].
Defined.

Lemma navigate_progress_counter_witness :
  waypoints_reached (heap (final (navigate 0%nat 20 smooth)) 0%nat) = 2.
Proof.
  exact (proj2 (proj2 (proj2 (proj2
           (navigate_progress_counter 0%nat 20 smooth)))) eq_refl).
Defined.

(** C5 fails on the code: with one waypoint object at the first and the
    third place of a route, the destinations computed for the third
    iteration are those after the first place, not the (empty) list of
    those after the third; a click that bounces back to the second page is
    then taken for a valid landing and [navigate] returns. *)
Lemma later_dests_of_repeated_waypoint :
  nth_error (waypoints (heap revisiting 0%nat)) 2 = Some (wp 1 "/a") /\
  map dest (skipn 3 (waypoints (heap revisiting 0%nat))) = [] /\
  later_dests 0%nat (wp 1 "/a") revisiting = Ok ["/b"; "/a"] revisiting /\
  returned (navigate 0%nat 20 revisiting) = true /\
  location (final (navigate 0%nat 20 revisiting)) = "https://shop.test/b" /\
  waypoints_reached (heap (final (navigate 0%nat 20 revisiting)) 0%nat) = 3.
Proof. repeat split; reflexivity. Qed.

Lemma handle_redirect_returns_only_when_recovered_witness :
  (exists c,
     calls (final (handle_redirect false None None None signing_in)) =
     (calls signing_in ++ [c])%list)
  /\
  returned (handle_redirect false (Some ["/c"]) (Some 20) (Some 0%nat)
              throttled) = false
  /\
  returned (handle_redirect false (Some ["/c"]) (Some 20) (Some 0%nat)
              bounced_early) = false.
Proof.
  split; [|split].
  - assert (R : returned (handle_redirect false None None None signing_in) =
                true) by reflexivity.
    destruct (proj1 (handle_redirect_returns_only_when_recovered
                       false None None None signing_in) R) as (c & H & _).
    exists c. exact H.
  - apply (proj1 (proj2 (handle_redirect_returns_only_when_recovered
                           false (Some ["/c"]) (Some 20) (Some 0%nat)
                           throttled))).
    + exists "https://shop.test", EmptyString. reflexivity.
    + apply not_occurring. reflexivity.
    + apply not_occurring. reflexivity.
  - apply (proj2 (proj2 (handle_redirect_returns_only_when_recovered
                           false (Some ["/c"]) (Some 20) (Some 0%nat)
                           bounced_early)) 0%nat).
    + reflexivity.
    + discriminate.
    + reflexivity.
    + apply not_occurring. reflexivity.
    + apply not_occurring. reflexivity.
Defined.

Lemma handle_redirect_without_destinations_is_fatal_witness :
  handle_redirect false (Some []) (Some 20) (Some 0%nat) stranded =
  Raise (UnhandledRedirect None) stranded.
Proof.
  apply (handle_redirect_without_destinations_is_fatal
           false (Some []) (Some 20) (Some 0%nat) stranded);
    try reflexivity.
  right. left. reflexivity.
Defined.

Lemma handle_redirect_timeout_quotes_raw_url_witness :
  substr_in "https://shop.test/unknown?late=1"
    (timeout_message "https://shop.test/unknown?late=1") = true.
Proof.
  refine (proj2 (handle_redirect_timeout_quotes_raw_url
                   false ["/c"] 20 (Some 0%nat) timed_out
                   (at_page "https://shop.test/unknown?late=1" [])
                   eq_refl eq_refl eq_refl eq_refl _ _ eq_refl)).
  - discriminate.
  - lia.
Defined.

Lemma handle_redirect_wait_outcome_witness :
  handle_redirect false (Some ["/c"]) (Some 20) (Some 0%nat) stranded =
  Ok tt {| driver := driver stranded; heap := heap stranded;
           calls := [call_wait_url_matches "/c" 20] |}.
Proof.
  refine (handle_redirect_wait_outcome
            false ["/c"] 20 (Some 0%nat) stranded
            eq_refl eq_refl eq_refl eq_refl _ _).
  - discriminate.
  - lia.
Defined.

Lemma handle_redirect_empty_route_is_no_route_witness :
  handle_redirect false None None (Some 0%nat) idle =
  handle_redirect false None None None idle.
Proof.
  apply (handle_redirect_empty_route_is_no_route
           false None None 0%nat idle).
  reflexivity.
Defined.

Lemma handle_redirect_reloads_at_start_witness :
  handle_redirect false None None (Some 0%nat) fresh_start =
  Raise (RouteRedirect None)
        {| driver := driver fresh_start; heap := heap fresh_start;
           calls := [call_refresh] |}.
Proof.
  refine (handle_redirect_reloads_at_start
            false None None 0%nat fresh_start
            eq_refl eq_refl eq_refl _ eq_refl eq_refl).
  discriminate.
Defined.

Lemma last_waypoint_redirect_is_fatal_witness :
  navigate_body 0%nat 20 w1 under_start =
  Raise (UnhandledRedirect None)
        (landed under_start w1 20 7%nat
           (at_page "https://shop.test/cart/b" [])).
Proof.
  refine (last_waypoint_redirect_is_fatal 0%nat 20 [] w1
            "Navigation to '/b' failed" under_start _
            eq_refl _ _ eq_refl eq_refl eq_refl eq_refl _).
  - intros x [].
  - discriminate.
  - discriminate.
Defined.

Lemma navigate_entry_loads_start_when_elsewhere_witness :
  calls (final (navigate_entry 0%nat smooth)) = calls smooth.
Proof.
  exact (proj1 (proj1 (navigate_entry_loads_start_when_elsewhere
                         0%nat smooth) eq_refl)).
Defined.

Lemma navigate_aborts_when_start_fails_witness :
  waypoints_reached (heap (final (navigate 0%nat 20 unreachable)) 0%nat) = 0.
Proof.
  refine (proj2 (navigate_aborts_when_start_fails 0%nat 20
                   (OtherException "WebDriverException")
                   (at_page "https://shop.test/elsewhere" [])
                   unreachable _ eq_refl)).
  discriminate.
Defined.

Lemma navigate_of_empty_route_witness :
  navigate 0%nat 20 idle = navigate_entry 0%nat idle.
Proof.
  apply (navigate_of_empty_route 0%nat 20 idle). reflexivity.
Defined.

Lemma element_not_found_ends_navigation_witness :
  navigate_body 0%nat 20 w1 missing_button =
  Raise TimeoutException
        {| driver := at_page cart []; heap := heap missing_button;
           calls := [call_wait_for_element ("id", "button") 20] |}.
Proof.
  refine (element_not_found_ends_navigation 0%nat 20 w1 TimeoutException
            (at_page cart []) missing_button _ _ eq_refl eq_refl).
  - left. reflexivity.
  - discriminate.
Defined.

Lemma valid_dest_of_distinct_waypoints_witness :
  later_dests 0%nat w1 smooth = Ok ["/c"] smooth.
Proof.
  refine (valid_dest_of_distinct_waypoints 0%nat smooth 0%nat w1 _ eq_refl).
  repeat constructor; cbn; intuition discriminate.
Defined.

Lemma empty_destination_accepts_any_landing_witness :
  navigate_waypoint 0%nat w1 20 [EmptyString] under_start =
  Ok tt (landed under_start w1 20 7%nat
           (at_page "https://shop.test/cart/b" [])).
Proof.
  refine (empty_destination_accepts_any_landing 0%nat w1 20 [EmptyString]
            under_start 7%nat _ _ _).
  - left. reflexivity.
  - eexists _, _, _. repeat split; try reflexivity. left. reflexivity.
Defined.

Lemma navigate_writes_only_its_counter_witness :
  heap (final (navigate 0%nat 20 smooth)) 1%nat = heap smooth 1%nat.
Proof.
  refine (proj2 (proj2 (proj2 (navigate_writes_only_its_counter
                                 0%nat 20 smooth))) 1%nat _).
  discriminate.
Defined.

Lemma clean_slotname_normalizes_witness :
  "t"%char <> " "%char /\ Run.lower_ascii "t" = "t"%char.
Proof.
  refine (proj2 (clean_slotname_normalizes (a_str "To Day")) "t"%char _).
  left. reflexivity.
Defined.

Lemma get_prefs_is_none_iff_any_any_witness :
  get_prefs_from_conf [("Sun", ["1:00 PM - 3:00 PM"]); ("Any", ["ANY"])] =
  None.
Proof.
  apply (proj2 (get_prefs_is_none_iff_any_any
                  [("Sun", ["1:00 PM - 3:00 PM"]); ("Any", ["ANY"])])).
  exists "Any", ["ANY"], "ANY". repeat split.
  - right. left. reflexivity.
  - left. reflexivity.
Defined.

Lemma get_prefs_one_per_window_witness :
  List.length ["sun"; "mon::1:00pm-3:00pm"] = 2%nat /\
  Forall (fun p => lower p = p) ["sun"; "mon::1:00pm-3:00pm"].
Proof.
  apply (get_prefs_one_per_window
           [("Sun", ["Any"]); ("Mon", ["1:00 PM - 3:00 PM"])]
           ["sun"; "mon::1:00pm-3:00pm"]).
  reflexivity.
Defined.

Lemma get_slots_returns_the_matching_slots_witness :
  In RunCases.sunday_late
     (get_slots_result [RunCases.sunday_early; RunCases.sunday_late]
        (Some ["any::3:00pm-5:00pm"])).
Proof.
  apply (proj2 (get_slots_returns_the_matching_slots
                  [RunCases.sunday_early; RunCases.sunday_late]
                  ["any::3:00pm-5:00pm"] RunCases.sunday_late
                  ltac:(discriminate) ltac:(discriminate))).
  split.
  - right. left. reflexivity.
  - exists "any::3:00pm-5:00pm". split; [left; reflexivity|].
    left. split; reflexivity.
Defined.

Lemma get_slots_repeats_slot_matched_twice_witness :
  exists l1 l2 l3,
    get_slots_result [RunCases.sunday_early; RunCases.sunday_late]
      (Some ([] ++ "any::1:00pm-3:00pm" :: [] ++ "sun" :: [])%list) =
    (l1 ++ RunCases.sunday_early :: l2 ++ RunCases.sunday_early :: l3)%list.
Proof.
  apply (get_slots_repeats_slot_matched_twice
           [RunCases.sunday_early; RunCases.sunday_late] [] [] []
           "any::1:00pm-3:00pm" "sun" RunCases.sunday_early).
  - left. reflexivity.
  - left. reflexivity.
Defined.

Lemma get_slots_first_is_earliest_preference_witness :
  exists tail,
    get_slots_result [RunCases.sunday_early; RunCases.sunday_late]
      (Some (["mon"] ++ "sun,apr19::3" :: ["sun"])%list) =
    RunCases.sunday_late :: tail.
Proof.
  apply (get_slots_first_is_earliest_preference
           [RunCases.sunday_early; RunCases.sunday_late] ["mon"] ["sun"]
           "sun,apr19::3" RunCases.sunday_late []).
  - intros c [<-|[]]. reflexivity.
  - reflexivity.
Defined.

Lemma day_with_space_selects_nothing_witness :
  get_slots_result [RunCases.sunday_early; RunCases.sunday_late]
    (get_prefs_from_conf [("Sun, Apr 19", ["Any"])]) = [].
Proof.
  refine (proj2 (day_with_space_selects_nothing "Sun, Apr 19" "Any"
                   [RunCases.sunday_early; RunCases.sunday_late]
                   eq_refl _ eq_refl _)).
  - cbn. intuition.
  - discriminate.
Defined.


Lemma generate_message_lists_every_slot_witness :
  exists text,
    generate_message [RunCases.sunday_early; RunCases.sunday_late]
      "Whole Foods" true =
    inr (Some (join newline
                 (("Whole Foods" ++ " delivery slots found!") :: text))).
Proof.
  destruct (generate_message_lists_every_slot
              [RunCases.sunday_early; RunCases.sunday_late]
              "Whole Foods" true) as (text & H & _).
  exists text. exact H.
Defined.

Lemma select_payment_method_takes_first_match_witness :
  exists card row,
    Some "4242" = Some card /\ card <> EmptyString /\
    nth_error [RunCases.row "1111"; RunCases.row "4242"; RunCases.row "4242"]
      1 = Some row /\
    card_number row = card /\
    (forall j row',
       (j < 1)%nat ->
       nth_error
         [RunCases.row "1111"; RunCases.row "4242"; RunCases.row "4242"] j =
       Some row' ->
       card_number row' <> card).
Proof.
  exact (select_payment_method_takes_first_match
           [RunCases.row "1111"; RunCases.row "4242"; RunCases.row "4242"]
           (Some "4242")).
Defined.
